(** * The switch/door gridworld of [social_dilemmas/envs/switch.py]

    A shallow embedding of [SwitchEnv]: the map generator [construct_map],
    the switch/door registry built by [__init__], the per-timestep
    coordination pass [custom_map_update], the episode bookkeeping of
    [custom_reset] and [step], and the properties the design document
    states about them.

    Python integers are unbounded and are modelled by [Z]; grid coordinates
    come from [range] and are modelled by [nat]; a cell of the numpy
    character grid is an [ascii]; a raised exception is [None]. *)

From Stdlib Require Import ZArith QArith String Ascii.
From stdpp Require Import base option list sorting gmap strings.

Local Open Scope Z_scope.

(** ** Python primitives used by the environment *)

Module Py.

(** A value that is either the float [np.nan] or a Python [int]: the two
    pull-timestep fields hold [np.nan] until a timestep is stored in them. *)
Inductive pyval : Type :=
| PyNaN : pyval
| PyInt : Z → pyval.

#[global] Instance pyval_eq_dec : EqDecision pyval.
Proof. solve_decision. Defined.

(** [np.isnan] on the values it accepts: see [np_isnan] for the values it
    refuses. *)
Definition isnan (v : pyval) : bool :=
  match v with
  | PyNaN => true
  | PyInt _ => false
  end.

(** [np.isnan] with its error path.  NumPy turns a Python [int] into a
    64-bit integer when it lies between [-2^63] and [2^64 - 1]; an [int]
    outside that range becomes an object, on which [np.isnan] raises
    [TypeError]. *)
Definition np_isnan (v : pyval) : option bool :=
  match v with
  | PyNaN => Some true
  | PyInt a => if decide (- 2 ^ 63 ≤ a < 2 ^ 64) then Some false else None
  end.

(** The integer nearest to [n] that has at most 53 significant bits, ties
    going to the even significand: the value of [float(n)]. *)
Definition round53 (n : Z) : Z :=
  let a := Z.abs n in
  let e := Z.log2 a - 52 in
  if e <=? 0 then n
  else
    let q := Z.shiftr a e in
    let r := Z.land a (Z.ones e) in
    let half := Z.shiftl 1 (e - 1) in
    let q' := if (half <? r) || ((half =? r) && Z.odd q) then q + 1 else q in
    Z.sgn n * Z.shiftl q' e.

(** [int(math.ceil(n / 2))] for a Python [int] [n].  The true division
    [n / 2] is the double nearest to the exact quotient, which is
    [round53 n / 2] (halving a double is exact); it raises [OverflowError]
    when that double would be [2^1024] or more.  [math.ceil] of the double
    is then the exact ceiling, an [int]. *)
Definition ceil_half (n : Z) : option Z :=
  let m := round53 n in
  if 2 ^ 1025 <=? Z.abs m then None else Some ((m + 1) / 2).

(** [s[:n]] *)
Fixpoint str_take (n : nat) (s : string) : string :=
  match n, s with
  | S k, String c r => String c (str_take k r)
  | _, _ => EmptyString
  end.

(** [s[n:]] *)
Fixpoint str_drop (n : nat) (s : string) : string :=
  match n, s with
  | S k, String _ r => str_drop k r
  | _, _ => s
  end.

(** A [for] loop whose body may raise: the state is threaded through the
    iterations and the first exception ends the loop. *)
Fixpoint for_each {A St : Type} (xs : list A) (body : St → A → option St)
    (st : St) : option St :=
  match xs with
  | [] => Some st
  | x :: xs' =>
      match body st x with
      | Some st' => for_each xs' body st'
      | None => None
      end
  end.

End Py.

Import Py.

(** ** Map generator *)

(** The row templates of [social_dilemmas.maps.SwitchMapElements]; the
    class is not part of this file, so the generator takes it as an
    argument. *)
Record SwitchMapElements : Type := {
  top_row : string;
  empty_row : string;
  one_switch_row : string;
  two_switch_row : string;
  bottom_row : string
}.

(** Modelled from the spec: the values of the row templates, which live in
    [social_dilemmas.maps]: a border row, and interior rows carrying no, one
    and two switch symbols, column 3 being free for the spawn marker. *)
Definition switch_map_elements : SwitchMapElements := {|
  top_row := "@@@D@@@";
  empty_row := "@     @";
  one_switch_row := "@s    @";
  two_switch_row := "@s   s@";
  bottom_row := "@@@D@@@"
|}.

(** The body of the [for i in range(num_rows)] loop of [construct_map],
    run [iters] times on the pair [(num_switches, partial_map)]. *)
Fixpoint fill_rows (T : SwitchMapElements) (iters : nat) (num_switches : Z)
    (partial_map : list string) : Z * list string :=
  match iters with
  | O => (num_switches, partial_map)
  | S k =>
      if num_switches =? 0 then
        fill_rows T k num_switches (partial_map ++ [empty_row T])
      else if num_switches =? 1 then
        fill_rows T k (num_switches - 1) (partial_map ++ [one_switch_row T])
      else if 1 <? num_switches then
        fill_rows T k (num_switches - 2) (partial_map ++ [two_switch_row T])
      else
        fill_rows T k num_switches partial_map
  end.

(** [row[:3] + "P" + row[4:]] *)
Definition place_spawn (row : string) : string :=
  (str_take 3 row ++ "P" ++ str_drop 4 row)%string.

(** [SwitchEnv.construct_map] *)
Definition construct_map (T : SwitchMapElements) (num_switches : Z)
    : option (list string) :=
  h ← ceil_half num_switches;
  let num_rows := Z.max 1 h in
  let partial_map := [top_row T] in
  let partial_map := (fill_rows T (Z.to_nat num_rows) num_switches partial_map).2 in
  let partial_map := partial_map ++ [bottom_row T] in
  middle_row ← ceil_half num_rows;
  row ← partial_map !! Z.to_nat middle_row;
  Some (<[Z.to_nat middle_row := place_spawn row]> partial_map).

(** ** The character grid *)

(** A two-dimensional numpy character array, as the list of its rows. *)
Abbreviation grid := (list (list ascii)).

(** A grid coordinate [(row, col)]. *)
Abbreviation coord := (nat * nat)%type.

(** [arr.shape] *)
Definition shape (g : grid) : nat * nat :=
  (length g, from_option length 0%nat (head g)).

(** [arr[row, col]]; an index out of range raises [IndexError]. *)
Definition grid_get (g : grid) (rc : coord) : option ascii :=
  row ← g !! rc.1; row !! rc.2.

(** [arr[row, col] = char], in place; an index out of range raises
    [IndexError]. *)
Definition grid_set (g : grid) (rc : coord) (char : ascii) : option grid :=
  row ← g !! rc.1;
  if decide (rc.2 < length row)%nat
  then Some (<[rc.1 := <[rc.2 := char]> row]> g)
  else None.

(** Modelled from the spec: [MapEnv.update_map], the base engine's
    batch-apply primitive, which is not part of this file: it takes a list
    of [(row, col, symbol)] and writes each symbol into its cell, in
    order. *)
Definition update_map (g : grid) (updates : list (nat * nat * ascii))
    : option grid :=
  for_each updates (λ g u, grid_set g (u.1.1, u.1.2) u.2) g.

(** Modelled from the spec: [MapEnv.ascii_to_numpy], which is not part of
    this file: the layout's row strings become the rows of the character
    array the registry scans. *)
Definition ascii_to_numpy (ascii_map : list string) : grid :=
  list_ascii_of_string <$> ascii_map.

(** ** Environment state *)

(** [GIVE_EXTERNAL_SWITCH_REWARD = int(False)] *)
Definition GIVE_EXTERNAL_SWITCH_REWARD : Z := Z.b2z false.

(** The part of an agent entity the environment writes to. *)
Record Agent : Type := {
  reward_this_turn : Q
}.

(** The fields of a [SwitchEnv] instance that the modelled methods read or
    write; [base_map], [world_map] and [agents] belong to the base class. *)
Record SwitchEnv : Type := {
  base_map : grid;
  world_map : grid;
  agents : gmap string Agent;
  initial_map_state : gmap coord ascii;
  switch_locations : list coord;
  door_locations : list coord;
  switch_count : Z;
  prev_activated_switch_count : Z;
  timestep : Z;
  total_pulled_on : Z;
  total_pulled_off : Z;
  timestep_first_switch_pull : pyval;
  timestep_last_switch_pull : pyval;
  switches_on_at_termination : Z;
  total_successes : Z
}.

(** ** Construction: the switch/door registry *)

(** The body of the inner loop of [__init__], at cell [(row, col)]. *)
Definition scan_cell (e : SwitchEnv) (rc : coord) : option SwitchEnv :=
  current_char ← grid_get (base_map e) rc;
  let ims :=
    if bool_decide (current_char ∈ ["s"; "S"; "d"; "D"]%char)
    then <[rc := current_char]> (initial_map_state e)
    else initial_map_state e in
  let is_switch := bool_decide (current_char ∈ ["s"; "S"]%char) in
  let is_door := bool_decide (current_char ∈ ["d"; "D"]%char) in
  Some {|
    base_map := base_map e;
    world_map := world_map e;
    agents := agents e;
    initial_map_state := ims;
    switch_locations :=
      if is_switch then switch_locations e ++ [rc] else switch_locations e;
    door_locations :=
      if is_door then door_locations e ++ [rc] else door_locations e;
    switch_count :=
      if is_switch then switch_count e + 1 else switch_count e;
    prev_activated_switch_count := prev_activated_switch_count e;
    timestep := timestep e;
    total_pulled_on := total_pulled_on e;
    total_pulled_off := total_pulled_off e;
    timestep_first_switch_pull := timestep_first_switch_pull e;
    timestep_last_switch_pull := timestep_last_switch_pull e;
    switches_on_at_termination := switches_on_at_termination e;
    total_successes := total_successes e
  |}.

(** The inner loop, [for col in range(self.base_map.shape[1])]. *)
Definition scan_row (e : SwitchEnv) (row : nat) : option SwitchEnv :=
  for_each (seq 0 (shape (base_map e)).2) (λ e col, scan_cell e (row, col)) e.

(** The part of [SwitchEnv.__init__] that follows the base constructor:
    the fields are initialised and every cell of [base_map] is scanned.
    The base constructor has built [base_map], [world_map] and [agents]. *)
Definition init_registry (bm wm : grid) (ags : gmap string Agent)
    : option SwitchEnv :=
  let e := {|
    base_map := bm;
    world_map := wm;
    agents := ags;
    initial_map_state := ∅;
    switch_locations := [];
    door_locations := [];
    switch_count := 0;
    prev_activated_switch_count := 0;
    timestep := 0;
    total_pulled_on := 0;
    total_pulled_off := 0;
    timestep_first_switch_pull := PyNaN;
    timestep_last_switch_pull := PyNaN;
    switches_on_at_termination := 0;
    total_successes := 0
  |} in
  for_each (seq 0 (shape bm).1) scan_row e.

(** Modelled from the spec: the grid the base constructor allocates for
    the world, which is not part of this file: it has the shape of the
    base layout and is mutated in place from then on. *)
Definition blank_world (bm : grid) : grid :=
  (λ row, replicate (length row) " "%char) <$> bm.

(** [SwitchEnv.__init__]: the layout is generated from
    [args.num_switches], the base constructor turns it into [base_map], and
    the registry is scanned from [base_map]. *)
Definition SwitchEnv_init (T : SwitchMapElements) (num_switches : Z)
    : option SwitchEnv :=
  constructed_map ← construct_map T num_switches;
  let bm := ascii_to_numpy constructed_map in
  init_registry bm (blank_world bm) ∅.

(** ** Reset *)

(** [SwitchEnv.custom_reset] *)
Definition custom_reset (e : SwitchEnv) : option SwitchEnv :=
  wm ← for_each (map_to_list (initial_map_state e))
        (λ wm item, grid_set wm item.1 item.2) (world_map e);
  Some {|
    base_map := base_map e;
    world_map := wm;
    agents := agents e;
    initial_map_state := initial_map_state e;
    switch_locations := switch_locations e;
    door_locations := door_locations e;
    switch_count := switch_count e;
    prev_activated_switch_count := 0;
    timestep := 0;
    total_pulled_on := 0;
    total_pulled_off := 0;
    timestep_first_switch_pull := PyNaN;
    timestep_last_switch_pull := PyNaN;
    switches_on_at_termination := 0;
    total_successes := 0
  |}.

(** ** The coordination pass *)

(** The first loop of [custom_map_update]: the number of registered switch
    cells that hold [b"S"]. *)
Definition count_activated (wm : grid) (locs : list coord) : option Z :=
  for_each locs
    (λ activated_switch_count rc,
       char ← grid_get wm rc;
       Some (if bool_decide (char = "S"%char)
             then activated_switch_count + 1
             else activated_switch_count))
    0.

(** [b"d" if open_doors else b"D"] *)
Definition door_symbol (open_doors : bool) : ascii :=
  if open_doors then "d"%char else "D"%char.

(** The batch of door updates built by [custom_map_update]. *)
Definition door_updates (locs : list coord) (door_char : ascii)
    : list (nat * nat * ascii) :=
  (λ rc : coord, (rc.1, rc.2, door_char)) <$> locs.

(** [agent.reward_this_turn += external_switch_reward] *)
Definition add_reward (external_switch_reward : Z) (a : Agent) : Agent :=
  {| reward_this_turn := Qplus (reward_this_turn a) (inject_Z external_switch_reward) |}.

(** [SwitchEnv.custom_map_update] *)
Definition custom_map_update (e : SwitchEnv) : option SwitchEnv :=
  activated_switch_count ← count_activated (world_map e) (switch_locations e);
  let switch_difference :=
    activated_switch_count - prev_activated_switch_count e in
  let external_switch_reward :=
    switch_difference * GIVE_EXTERNAL_SWITCH_REWARD in
  let ags := add_reward external_switch_reward <$> agents e in
  let open_doors := bool_decide (activated_switch_count = switch_count e) in
  let door_char := door_symbol open_doors in
  let updates := door_updates (door_locations e) door_char in
  wm ← update_map (world_map e) updates;
  let pulled := negb (switch_difference =? 0) in
  Some {|
    base_map := base_map e;
    world_map := wm;
    agents := ags;
    initial_map_state := initial_map_state e;
    switch_locations := switch_locations e;
    door_locations := door_locations e;
    switch_count := switch_count e;
    prev_activated_switch_count := activated_switch_count;
    timestep := timestep e;
    total_pulled_on :=
      if pulled then total_pulled_on e + Z.max 0 switch_difference
      else total_pulled_on e;
    total_pulled_off :=
      if pulled then total_pulled_off e + Z.max 0 (- switch_difference)
      else total_pulled_off e;
    timestep_first_switch_pull :=
      if pulled && isnan (timestep_first_switch_pull e)
      then PyInt (timestep e)
      else timestep_first_switch_pull e;
    timestep_last_switch_pull :=
      if pulled then PyInt (timestep e) else timestep_last_switch_pull e;
    switches_on_at_termination :=
      if pulled then activated_switch_count
      else switches_on_at_termination e;
    total_successes := total_successes e
  |}.

(** ** The step wrapper *)

(** [SwitchEnv.create_extra_info_dict] *)
Definition create_extra_info_dict (e : SwitchEnv) : gmap string pyval :=
  list_to_map [
    ("switches_on_at_termination", PyInt (switches_on_at_termination e));
    ("total_pulled_on", PyInt (total_pulled_on e));
    ("total_pulled_off", PyInt (total_pulled_off e));
    ("timestep_first_switch_pull", timestep_first_switch_pull e);
    ("timestep_last_switch_pull", timestep_last_switch_pull e);
    ("total_successes", PyInt (total_successes e))
  ]%string.

(** The keys of the extra-info dictionary. *)
Definition extra_info_keys : list string := [
  "switches_on_at_termination";
  "total_pulled_on";
  "total_pulled_off";
  "timestep_first_switch_pull";
  "timestep_last_switch_pull";
  "total_successes"
]%string.

(** An agent's observation: the image window and, when agent actions are
    returned, the other agents' last actions and visibility flags. *)
Record observation : Type := {
  curr_obs : list (list (list Z));
  other_agent_actions : option (list Z);
  visible_agents : option (list Z)
}.

(** What [MapEnv.step] returns: observations, rewards, dones and info, each
    a dictionary keyed by agent id. *)
Record StepResult : Type := {
  observations : gmap string observation;
  rewards : gmap string Q;
  dones : gmap string bool;
  step_info : gmap string (gmap string pyval)
}.

(** The external base engine, which is not part of this file: how it
    turns the agents' actions into cell updates and new agent entities, and
    how it assembles what [step] returns. *)
Record Engine : Type := {
  apply_actions :
    list (string * Z) → SwitchEnv → list (nat * nat * ascii) * gmap string Agent;
  assemble : list (string * Z) → SwitchEnv → StepResult
}.

(** The environment after the engine has rewritten the grid and the
    agents; nothing else belongs to the engine. *)
Definition with_world (e : SwitchEnv) (wm : grid) (ags : gmap string Agent)
    : SwitchEnv := {|
  base_map := base_map e;
  world_map := wm;
  agents := ags;
  initial_map_state := initial_map_state e;
  switch_locations := switch_locations e;
  door_locations := door_locations e;
  switch_count := switch_count e;
  prev_activated_switch_count := prev_activated_switch_count e;
  timestep := timestep e;
  total_pulled_on := total_pulled_on e;
  total_pulled_off := total_pulled_off e;
  timestep_first_switch_pull := timestep_first_switch_pull e;
  timestep_last_switch_pull := timestep_last_switch_pull e;
  switches_on_at_termination := switches_on_at_termination e;
  total_successes := total_successes e
|}.

(** Modelled from the spec: [MapEnv.step], the base engine's step, which is
    not part of this file: the engine applies the movement and beam effects
    of all agents to the grid through [update_map], then the coordination
    pass runs exactly once over the resulting grid, then the engine
    assembles observations, rewards, dones and info. *)
Definition MapEnv_step (E : Engine) (actions : list (string * Z))
    (e : SwitchEnv) : option (SwitchEnv * StepResult) :=
  let moved := apply_actions E actions e in
  wm ← update_map (world_map e) moved.1;
  e' ← custom_map_update (with_world e wm moved.2);
  Some (e', assemble E actions e').

(** The double written [0.1] in the source, exactly. *)
Definition success_threshold : Q := 3602879701896397 # 36028797018963968.

(** [rewards[first_agent] > 0.1] *)
Definition exceeds_threshold (reward : Q) : bool :=
  negb (Qle_bool reward success_threshold).

(** The bookkeeping of [step] on the fields it writes. *)
Definition with_counters (e : SwitchEnv) (successes t : Z) : SwitchEnv := {|
  base_map := base_map e;
  world_map := world_map e;
  agents := agents e;
  initial_map_state := initial_map_state e;
  switch_locations := switch_locations e;
  door_locations := door_locations e;
  switch_count := switch_count e;
  prev_activated_switch_count := prev_activated_switch_count e;
  timestep := t;
  total_pulled_on := total_pulled_on e;
  total_pulled_off := total_pulled_off e;
  timestep_first_switch_pull := timestep_first_switch_pull e;
  timestep_last_switch_pull := timestep_last_switch_pull e;
  switches_on_at_termination := switches_on_at_termination e;
  total_successes := successes
|}.

(** [SwitchEnv.step]; [actions] is the mapping from agent id to action in
    its iteration order.  [next(iter(actions.keys()))] raises on an empty
    mapping, [rewards[first_agent]] on a missing key. *)
Definition step (E : Engine) (actions : list (string * Z)) (e : SwitchEnv)
    : option (SwitchEnv * StepResult) :=
  base ← MapEnv_step E actions e;
  first_agent ← head (actions.*1);
  reward ← rewards base.2 !! first_agent;
  let successes :=
    if exceeds_threshold reward
    then total_successes base.1 + 1
    else total_successes base.1 in
  let e1 := with_counters base.1 successes (timestep base.1) in
  let extra_info : gmap string (gmap string pyval) :=
    {[ first_agent := create_extra_info_dict e1 ]} in
  Some (with_counters e1 successes (timestep e1 + 1),
        {| observations := observations base.2;
           rewards := rewards base.2;
           dones := dones base.2;
           step_info := extra_info ∪ step_info base.2 |}).

(** ** Reachable states and the quantities the properties speak of *)

(** Two grids of the same shape: the same number of rows, of the same
    lengths. *)
Definition same_shape (g1 g2 : grid) : Prop :=
  length <$> g1 = length <$> g2.

(** What can happen to an environment inside an episode: the engine
    rewrites cells of the grid in place and replaces the agents, the
    coordination pass runs, or a whole [step] runs. *)
Inductive episode_step : SwitchEnv → SwitchEnv → Prop :=
| ep_engine e updates wm ags :
    update_map (world_map e) updates = Some wm →
    episode_step e (with_world e wm ags)
| ep_update e e' :
    custom_map_update e = Some e' →
    episode_step e e'
| ep_step E actions e e' r :
    step E actions e = Some (e', r) →
    episode_step e e'.

(** The states an environment instance goes through: it is constructed
    over some base layout, it is reset, and episodes run on it. *)
Inductive reachable : SwitchEnv → Prop :=
| reach_init bm wm ags e :
    same_shape wm bm →
    init_registry bm wm ags = Some e →
    reachable e
| reach_reset e e' :
    reachable e →
    custom_reset e = Some e' →
    reachable e'
| reach_episode e e' :
    reachable e →
    episode_step e e' →
    reachable e'.

(** The number of cells among [locs] that hold the on symbol [b"S"]. *)
Definition switches_on (wm : grid) (locs : list coord) : Z :=
  Z.of_nat (length (filter (λ rc, grid_get wm rc = Some "S"%char) locs)).

(** The activation delta the coordination pass computes in state [e]. *)
Definition activation_delta (e : SwitchEnv) : Z :=
  switches_on (world_map e) (switch_locations e) - prev_activated_switch_count e.

(** Whether the cell at [rc] holds one of the symbols [syms]. *)
Definition holds_one_of (g : grid) (syms : list ascii) (rc : coord) : bool :=
  match grid_get g rc with
  | Some char => bool_decide (char ∈ syms)
  | None => false
  end.

(** Every coordinate of a grid, row by row. *)
Definition all_coords (g : grid) : list coord :=
  seq 0 (shape g).1 ≫= λ row, (λ col, (row, col)) <$> seq 0 (shape g).2.

(** The coordinates of the cells of [g] that hold one of [syms], row by
    row: what a scan of the layout finds. *)
Definition scanned (g : grid) (syms : list ascii) : list coord :=
  filter (λ rc, holds_one_of g syms rc = true) (all_coords g).

(** Every door cell holds the door symbol that the current activation
    count calls for. *)
Definition doors_follow_switches (e : SwitchEnv) : Prop :=
  ∀ rc, rc ∈ door_locations e →
    grid_get (world_map e) rc =
      Some (door_symbol (bool_decide
        (switches_on (world_map e) (switch_locations e) = switch_count e))).

(** The number of switch symbols in a row string, and in a layout. *)
Definition switch_symbols (row : string) : Z :=
  Z.of_nat (length (filter (λ c, c ∈ ["s"; "S"]%char) (list_ascii_of_string row))).

Definition layout_switch_symbols (layout : list string) : Z :=
  foldr Z.add 0 (switch_symbols <$> layout).

(** The exact ceiling of [n / 2]. *)
Definition ceil_div2 (n : Z) : Z := (n + 1) / 2.

(** Templates as the generator expects them: the border rows carry no
    switch symbol, the interior templates carry none, one and two, and
    column 3 of an interior template is not a switch symbol. *)
Record templates_ok (T : SwitchMapElements) : Prop := {
  top_no_switch : switch_symbols (top_row T) = 0;
  bottom_no_switch : switch_symbols (bottom_row T) = 0;
  empty_no_switch : switch_symbols (empty_row T) = 0;
  one_one_switch : switch_symbols (one_switch_row T) = 1;
  two_two_switches : switch_symbols (two_switch_row T) = 2;
  spawn_column_free :
    ∀ row char, row ∈ [empty_row T; one_switch_row T; two_switch_row T] →
      list_ascii_of_string row !! 3%nat = Some char →
      char ∉ ["s"; "S"]%char
}.

(** What holds of every reachable state. *)
Record wf (e : SwitchEnv) : Prop := {
  wf_shape : same_shape (world_map e) (base_map e);
  wf_switches : switch_locations e = scanned (base_map e) ["s"; "S"]%char;
  wf_doors : door_locations e = scanned (base_map e) ["d"; "D"]%char;
  wf_initial :
    ∀ rc char, initial_map_state e !! rc = Some char ↔
      grid_get (base_map e) rc = Some char ∧
      rc ∈ all_coords (base_map e) ∧
      char ∈ ["s"; "S"; "d"; "D"]%char;
  wf_count : switch_count e = Z.of_nat (length (switch_locations e));
  wf_snapshot : switches_on_at_termination e = prev_activated_switch_count e;
  wf_balance : total_pulled_on e - total_pulled_off e = prev_activated_switch_count e;
  wf_on_nonneg : 0 ≤ total_pulled_on e;
  wf_off_nonneg : 0 ≤ total_pulled_off e;
  wf_first_last : isnan (timestep_first_switch_pull e) = isnan (timestep_last_switch_pull e);
  wf_unset :
    isnan (timestep_first_switch_pull e) = true ↔
      total_pulled_on e = 0 ∧ total_pulled_off e = 0
}.

(** The state of the scan after the coordinates [seen]. *)
Record scan_inv (bm wm : grid) (seen : list coord) (e : SwitchEnv) : Prop := {
  si_base : base_map e = bm;
  si_world : world_map e = wm;
  si_switches :
    switch_locations e = filter (λ rc, holds_one_of bm ["s"; "S"]%char rc = true) seen;
  si_doors :
    door_locations e = filter (λ rc, holds_one_of bm ["d"; "D"]%char rc = true) seen;
  si_count : switch_count e = Z.of_nat (length (switch_locations e));
  si_initial :
    ∀ rc char, initial_map_state e !! rc = Some char ↔
      grid_get bm rc = Some char ∧ rc ∈ seen ∧ char ∈ ["s"; "S"; "d"; "D"]%char;
  si_prev : prev_activated_switch_count e = 0;
  si_on : total_pulled_on e = 0;
  si_off : total_pulled_off e = 0;
  si_first : timestep_first_switch_pull e = PyNaN;
  si_last : timestep_last_switch_pull e = PyNaN;
  si_snapshot : switches_on_at_termination e = 0
}.

(** A small hand-written layout with two switches and two doors, and the
    environment constructed over it. *)
Definition demo_base_map : grid :=
  ascii_to_numpy ["@@D@@"; "@s S@"; "@@d@@"]%string.

(** A grid of the same shape in which both switches are on and the doors
    disagree, as the engine may leave it. *)
Definition demo_world : grid :=
  ascii_to_numpy ["@@D@@"; "@S S@"; "@@d@@"]%string.

(** The environment constructed over the two. *)
Definition demo_state : SwitchEnv := {|
  base_map := demo_base_map;
  world_map := demo_world;
  agents := ∅;
  initial_map_state :=
    list_to_map [((0, 2), "D"); ((1, 1), "s"); ((1, 3), "S"); ((2, 2), "d")]%nat%char;
  switch_locations := [(1, 1); (1, 3)]%nat;
  door_locations := [(0, 2); (2, 2)]%nat;
  switch_count := 2;
  prev_activated_switch_count := 0;
  timestep := 0;
  total_pulled_on := 0;
  total_pulled_off := 0;
  timestep_first_switch_pull := PyNaN;
  timestep_last_switch_pull := PyNaN;
  switches_on_at_termination := 0;
  total_successes := 0
|}.

(** The actions of two agents, in submission order. *)
Definition two_agents : list (string * Z) :=
  [("agent-0", 7); ("agent-1", 7)]%string.

(** One step of the life of an environment: a reset, or a step of an
    episode. *)
Definition lifecycle_step (e e' : SwitchEnv) : Prop :=
  custom_reset e = Some e' ∨ episode_step e e'.

(** An engine that moves nothing and reports nothing but zero rewards for
    two agents. *)
Definition idle_engine : Engine := {|
  apply_actions := λ _ e, ([], agents e);
  assemble := λ _ _, {|
    observations := ∅;
    rewards := {[ "agent-0"%string := 0%Q; "agent-1"%string := 0%Q ]};
    dones := ∅;
    step_info := ∅
  |}
|}.

(** An engine that turns the switch at row 1, column 3 off and reports
    what [idle_engine] reports. *)
Definition switch_off_engine : Engine := {|
  apply_actions := λ _ e, ([(1, 3, "s"%char)]%nat, agents e);
  assemble := assemble idle_engine
|}.

(** An engine that moves nothing and rewards the first of two agents
    with 1. *)
Definition rewarding_engine : Engine := {|
  apply_actions := apply_actions idle_engine;
  assemble := λ _ _, {|
    observations := ∅;
    rewards := {[ "agent-0"%string := 1%Q; "agent-1"%string := 0%Q ]};
    dones := ∅;
    step_info := ∅
  |}
|}.

(** The demonstration environment two steps into an episode: the first
    step finds both switches on, the second has one of them turned off. *)
Definition busy_state : option SwitchEnv :=
  r1 ← step idle_engine two_agents demo_state;
  r2 ← step switch_off_engine two_agents r1.1;
  Some r2.1.


(** ** Counting activated switches in a window *)

(** The order of bytes, by their codes. *)
Definition byte_le (a b : ascii) : Prop :=
  (nat_of_ascii a ≤ nat_of_ascii b)%nat.

#[global] Instance byte_le_dec : RelDecision byte_le.
Proof. intros a b. unfold byte_le. apply _. Defined.

(** [np.unique(window, return_counts=True)]: the distinct values of the
    flattened array in sorted order, and for each the number of times it
    occurs. *)
Definition np_unique_counts (window : grid) : list ascii * list Z :=
  let flat := concat window in
  let unique :=
    remove_dups (merge_sort byte_le flat) in
  (unique, (λ u, Z.of_nat (length (filter (λ c, c = u) flat))) <$> unique).

(** [dict(pairs)]: the pairs are inserted in order, a later pair replacing
    an earlier one with the same key. *)
Definition py_dict {V : Type} (pairs : list (ascii * V)) : gmap ascii V :=
  fold_left (λ d kv, <[kv.1 := kv.2]> d) pairs ∅.

(** [SwitchEnv.count_switches] *)
Definition count_switches (window : grid) : Z :=
  let uc := np_unique_counts window in
  let counts_dict := py_dict (zip uc.1 uc.2) in
  default 0 (counts_dict !! "S"%char).

(** ** The episode-end callback *)

(** The part of the training framework's episode object that the callback
    uses: the last info dictionary recorded for each agent, and the
    episode's custom metrics. *)
Record Episode : Type := {
  last_info : gmap string (gmap string pyval);
  custom_metrics : gmap string pyval
}.

(** [SwitchEnv.on_episode_end]; [info["episode"]] raises when the key is
    missing, and the subscription [last_info[key]] raises when the episode
    has no last info for ["agent-0"] or when that info lacks the key. *)
Definition on_episode_end (info : gmap string Episode) : option Episode :=
  episode ← info !! "episode"%string;
  last ← last_info episode !! "agent-0"%string;
  metrics ← for_each extra_info_keys
    (λ metrics key, value ← last !! key; Some (<[key := value]> metrics))
    (custom_metrics episode);
  Some {| last_info := last_info episode; custom_metrics := metrics |}.

(** ** More of what holds of every reachable state *)

(** The pull timesteps lie in the episode: the first pull is not after the
    last, and the last is not after the current timestep. *)
Record timeline_ok (e : SwitchEnv) : Prop := {
  tl_nonneg : 0 ≤ timestep e;
  tl_last :
    ∀ b, timestep_last_switch_pull e = PyInt b → 0 ≤ b ≤ timestep e;
  tl_first :
    ∀ a, timestep_first_switch_pull e = PyInt a →
      ∃ b, timestep_last_switch_pull e = PyInt b ∧ 0 ≤ a ≤ b
}.

(** A layout all of whose rows have the width [w]. *)
Definition rectangular (w : nat) (layout : list string) : Prop :=
  Forall (λ row, String.length row = w) layout.

(** The rows the loop of [construct_map] produces for [n] switches:
    two-switch rows first, then a one-switch row when [n] is odd, and one
    empty row when [n] is 0. *)
Definition interior_rows (T : SwitchMapElements) (n : Z) : list string :=
  replicate (Z.to_nat (n / 2)) (two_switch_row T)
  ++ replicate (Z.to_nat (n mod 2)) (one_switch_row T)
  ++ (if decide (n = 0) then [empty_row T] else []).

(** * Properties *)

(** ** Loops *)

Lemma for_each_app {A St} (xs ys : list A) (body : St → A → option St) st :
  for_each (xs ++ ys) body st = for_each xs body st ≫= for_each ys body.
Proof.
  revert st. induction xs as [|x xs IH]; intros st; simpl; [done|].
  destruct (body st x); simpl; [apply IH | done].
Qed.

Lemma for_each_inv {A St} (I : St → Prop) (xs : list A)
    (body : St → A → option St) st st' :
  (∀ s x s', x ∈ xs → I s → body s x = Some s' → I s') →
  I st → for_each xs body st = Some st' → I st'.
Proof.
  revert st. induction xs as [|x xs IH]; intros st Hbody Hst Hrun; simpl in *.
  - by simplify_eq.
  - destruct (body st x) as [s1|] eqn:Hx; [|done].
    apply (IH s1); [|by eapply Hbody; [left| |] |done].
    intros s y s' Hy. apply Hbody. by right.
Qed.

Lemma for_each_total {A St} (I : St → Prop) (xs : list A)
    (body : St → A → option St) st :
  (∀ s x, x ∈ xs → I s → ∃ s', body s x = Some s' ∧ I s') →
  I st → ∃ st', for_each xs body st = Some st' ∧ I st'.
Proof.
  revert st. induction xs as [|x xs IH]; intros st Hbody Hst; simpl.
  - by exists st.
  - destruct (Hbody st x) as (s1 & -> & Hs1); [by left|done|].
    apply IH; [|done]. intros s y Hy. apply Hbody. by right.
Qed.

(** A loop nest over rows and columns is one loop over the coordinates. *)
Lemma for_each_nested {St} (rows cols : list nat) (body : St → coord → option St) st :
  for_each rows (λ s row, for_each cols (λ s col, body s (row, col)) s) st
  = for_each (rows ≫= λ row, (λ col, (row, col)) <$> cols) body st.
Proof.
  revert st. induction rows as [|r rows IH]; intros st; [done|].
  cbn [for_each mbind list_bind]. simpl. rewrite for_each_app.
  assert (Hrow : ∀ s, for_each cols (λ s col, body s (r, col)) s
                      = for_each ((λ col, (r, col)) <$> cols) body s).
  { clear. induction cols as [|c cols IHc]; intros s; simpl; [done|].
    destruct (body s (r, c)); [apply IHc|done]. }
  rewrite Hrow. destruct (for_each _ body st); simpl; [apply IH|done].
Qed.

(** ** Cells of a grid *)

Lemma same_shape_refl g : same_shape g g.
Proof. done. Qed.

Lemma same_shape_trans g1 g2 g3 :
  same_shape g1 g2 → same_shape g2 g3 → same_shape g1 g3.
Proof. unfold same_shape. congruence. Qed.

Lemma same_shape_row (g1 g2 : grid) r row1 :
  same_shape g1 g2 → g1 !! r = Some row1 →
  ∃ row2, g2 !! r = Some row2 ∧ length row2 = length row1.
Proof.
  unfold same_shape. intros Hs Hr.
  assert (H : (length <$> g2) !! r = Some (length row1)).
  { rewrite <- Hs, list_lookup_fmap, Hr. done. }
  rewrite list_lookup_fmap in H.
  destruct (g2 !! r) as [row2|]; simplify_eq/=. eauto.
Qed.

Lemma grid_get_in_range (g : grid) rc :
  is_Some (grid_get g rc) ↔
  ∃ row, g !! rc.1 = Some row ∧ (rc.2 < length row)%nat.
Proof.
  unfold grid_get. split.
  - intros [ch Hch]. destruct (g !! rc.1) as [row|]; simplify_eq/=.
    exists row. split; [done|]. by eapply lookup_lt_Some.
  - intros (row & -> & Hlt). simpl. by apply lookup_lt_is_Some.
Qed.

Lemma same_shape_get g1 g2 rc :
  same_shape g1 g2 → is_Some (grid_get g1 rc) → is_Some (grid_get g2 rc).
Proof.
  intros Hs. rewrite !grid_get_in_range. intros (row1 & Hr & Hlt).
  destruct (same_shape_row g1 g2 _ _ Hs Hr) as (row2 & ? & Hlen).
  exists row2. split; [done|lia].
Qed.

Lemma grid_set_is_Some g rc char :
  is_Some (grid_get g rc) → is_Some (grid_set g rc char).
Proof.
  rewrite grid_get_in_range. intros (row & Hr & Hlt).
  unfold grid_set. rewrite Hr. simpl. by rewrite decide_True.
Qed.

Lemma grid_set_Some g rc char g' :
  grid_set g rc char = Some g' →
  ∃ row, g !! rc.1 = Some row ∧ (rc.2 < length row)%nat ∧
         g' = <[rc.1 := <[rc.2 := char]> row]> g.
Proof.
  unfold grid_set. intros H.
  destruct (g !! rc.1) as [row|]; simplify_eq/=.
  case_decide; simplify_eq. eauto.
Qed.

Lemma grid_set_shape g rc char g' :
  grid_set g rc char = Some g' → same_shape g' g.
Proof.
  intros (row & Hr & Hlt & ->)%grid_set_Some. unfold same_shape.
  rewrite list_fmap_insert, length_insert.
  apply list_insert_id. by rewrite list_lookup_fmap, Hr.
Qed.

Lemma grid_get_set g rc char g' rc' :
  grid_set g rc char = Some g' →
  grid_get g' rc' = if decide (rc' = rc) then Some char else grid_get g rc'.
Proof.
  intros (row & Hr & Hlt & ->)%grid_set_Some. unfold grid_get.
  destruct rc as [r c], rc' as [r' c']; simpl in *.
  destruct (decide (r' = r)) as [->|Hne].
  - rewrite list_lookup_insert_eq by by eapply lookup_lt_Some. simpl.
    destruct (decide (c' = c)) as [->|Hc].
    + rewrite decide_True by done. by apply list_lookup_insert_eq.
    + rewrite decide_False by congruence.
      rewrite list_lookup_insert_ne by done. by rewrite Hr.
  - rewrite decide_False by congruence.
    by rewrite list_lookup_insert_ne.
Qed.

Lemma grid_set_same g rc char :
  grid_get g rc = Some char → grid_set g rc char = Some g.
Proof.
  unfold grid_get, grid_set. intros H.
  destruct (g !! rc.1) as [row|] eqn:Hr; simplify_eq/=.
  rewrite decide_True by by eapply lookup_lt_Some.
  by rewrite (list_insert_id row), list_insert_id.
Qed.

(** ** Batches of cell updates *)

Lemma update_map_shape g updates g' :
  update_map g updates = Some g' → same_shape g' g.
Proof.
  unfold update_map. intros H.
  eapply (for_each_inv (λ g1, same_shape g1 g)); [|apply same_shape_refl|exact H].
  intros s u s' _ Hs Hset. simpl in Hset.
  eapply same_shape_trans; [|exact Hs]. by eapply grid_set_shape.
Qed.

Lemma update_map_frame g updates g' rc :
  update_map g updates = Some g' →
  (∀ u, u ∈ updates → (u.1.1, u.1.2) ≠ rc) →
  grid_get g' rc = grid_get g rc.
Proof.
  unfold update_map. intros H Hout.
  eapply (for_each_inv (λ g1, grid_get g1 rc = grid_get g rc)); [|done|exact H].
  intros s u s' Hu Hs Hset. simpl in Hset.
  rewrite (grid_get_set _ _ _ _ rc Hset).
  rewrite decide_False; [done|]. intros ->. by eapply Hout.
Qed.

Lemma update_map_total g updates :
  (∀ u, u ∈ updates → is_Some (grid_get g (u.1.1, u.1.2))) →
  is_Some (update_map g updates).
Proof.
  intros Hin. unfold update_map.
  destruct (for_each_total (λ g1, same_shape g g1) updates
              (λ g u, grid_set g (u.1.1, u.1.2) u.2) g) as (g' & -> & _);
    [|apply same_shape_refl|done].
  intros s u Hu Hs.
  destruct (grid_set_is_Some s (u.1.1, u.1.2) u.2) as [s' Hs'].
  { eapply same_shape_get; [exact Hs|]. by apply Hin. }
  exists s'. split; [done|].
  eapply same_shape_trans; [exact Hs|]. unfold same_shape. symmetry.
  by eapply grid_set_shape.
Qed.

Lemma elem_of_door_updates locs door_char u :
  u ∈ door_updates locs door_char ↔
  (u.1.1, u.1.2) ∈ locs ∧ u.2 = door_char.
Proof.
  unfold door_updates. rewrite list_elem_of_fmap. split.
  - intros ([r c] & -> & Hin). done.
  - intros [Hin <-]. exists (u.1.1, u.1.2). by destruct u as [[? ?] ?].
Qed.

(** After the door batch, a cell is the door symbol if it is a door and
    is what it was otherwise. *)
Lemma update_map_doors g locs door_char g' rc :
  update_map g (door_updates locs door_char) = Some g' →
  grid_get g' rc = if decide (rc ∈ locs) then Some door_char else grid_get g rc.
Proof.
  unfold update_map. revert g.
  induction locs as [|loc locs IH]; intros g H; simpl in H.
  - simplify_eq. by rewrite decide_False by apply not_elem_of_nil.
  - destruct (grid_set g (loc.1, loc.2) door_char) as [g1|] eqn:Hset; [|done].
    rewrite (IH _ H). rewrite (grid_get_set _ _ _ _ rc Hset).
    destruct loc as [r c]; simpl.
    destruct (decide (rc ∈ locs)) as [Hin|Hout].
    + rewrite decide_True; [done|by right].
    + destruct (decide (rc = (r, c))) as [->|Hne].
      * rewrite decide_True; [done|by left].
      * rewrite decide_False; [done|]. by intros [?|?]%elem_of_cons.
Qed.

(** ** Counting activated switches *)

Lemma switches_on_nil wm : switches_on wm [] = 0.
Proof. done. Qed.

Lemma switches_on_cons wm rc locs :
  switches_on wm (rc :: locs) =
  (if decide (grid_get wm rc = Some "S"%char) then 1 else 0) + switches_on wm locs.
Proof.
  unfold switches_on. rewrite filter_cons.
  case_decide; simpl length; lia.
Qed.

Lemma switches_on_bounds wm locs :
  0 ≤ switches_on wm locs ≤ Z.of_nat (length locs).
Proof.
  unfold switches_on. pose proof (length_filter (λ rc, grid_get wm rc = Some "S"%char) locs).
  lia.
Qed.

Lemma switches_on_ext wm wm' locs :
  (∀ rc, rc ∈ locs → grid_get wm rc = grid_get wm' rc) →
  switches_on wm locs = switches_on wm' locs.
Proof.
  induction locs as [|rc locs IH]; intros Hext; [done|].
  rewrite !switches_on_cons, IH, (Hext rc); [done|by left|].
  intros rc' Hin. apply Hext. by right.
Qed.

Lemma count_activated_acc wm locs acc n :
  for_each locs
    (λ activated_switch_count rc,
       char ← grid_get wm rc;
       Some (if bool_decide (char = "S"%char)
             then activated_switch_count + 1
             else activated_switch_count)) acc = Some n →
  n = acc + switches_on wm locs ∧ ∀ rc, rc ∈ locs → is_Some (grid_get wm rc).
Proof.
  revert acc. induction locs as [|rc locs IH]; intros acc H; simpl in H.
  - simplify_eq. rewrite switches_on_nil. split; [lia|]. by intros rc ?%elem_of_nil.
  - destruct (grid_get wm rc) as [char|] eqn:Hget; simpl in H; [|done].
    apply IH in H as [-> Hin]. rewrite switches_on_cons, Hget. split.
    + case_bool_decide; case_decide; simplify_eq; lia.
    + intros rc' [->|?]%elem_of_cons; [by rewrite Hget|by apply Hin].
Qed.

Lemma count_activated_Some wm locs n :
  count_activated wm locs = Some n → n = switches_on wm locs.
Proof. intros [-> _]%count_activated_acc. lia. Qed.

Lemma count_activated_total wm locs :
  (∀ rc, rc ∈ locs → is_Some (grid_get wm rc)) →
  count_activated wm locs = Some (switches_on wm locs).
Proof.
  intros Hin. unfold count_activated.
  destruct (for_each_total (λ _, True) locs
    (λ activated_switch_count rc,
       char ← grid_get wm rc;
       Some (if bool_decide (char = "S"%char)
             then activated_switch_count + 1
             else activated_switch_count)) 0) as (n & Hn & _); [|done|].
  - intros s rc Hrc _. destruct (Hin rc Hrc) as [char ->]. simpl. eauto.
  - rewrite Hn. f_equal. by apply count_activated_Some.
Qed.

(** ** The scan of the base layout *)

Lemma holds_one_of_Some g syms rc :
  holds_one_of g syms rc = true ↔ ∃ char, grid_get g rc = Some char ∧ char ∈ syms.
Proof.
  unfold holds_one_of. destruct (grid_get g rc) as [char|].
  - rewrite bool_decide_eq_true. naive_solver.
  - naive_solver.
Qed.

Lemma elem_of_scanned g syms rc :
  rc ∈ scanned g syms ↔
  rc ∈ all_coords g ∧ ∃ char, grid_get g rc = Some char ∧ char ∈ syms.
Proof.
  unfold scanned. rewrite list_elem_of_filter, holds_one_of_Some. tauto.
Qed.

Lemma scanned_disjoint g rc :
  rc ∈ scanned g ["s"; "S"]%char → rc ∉ scanned g ["d"; "D"]%char.
Proof.
  rewrite !elem_of_scanned. intros [_ (c1 & H1 & Hs)] [_ (c2 & H2 & Hd)].
  simplify_eq. set_solver.
Qed.

Lemma scan_cell_inv bm wm seen e rc e' :
  scan_inv bm wm seen e → scan_cell e rc = Some e' →
  scan_inv bm wm (seen ++ [rc]) e'.
Proof.
  intros [] Hcell. unfold scan_cell in Hcell.
  rewrite si_base0 in Hcell.
  destruct (grid_get bm rc) as [cur|] eqn:Hget; [|discriminate].
  simpl in Hcell. injection Hcell as <-.
  assert (Hsw : holds_one_of bm ["s"; "S"]%char rc = bool_decide (cur ∈ ["s"; "S"]%char)).
  { unfold holds_one_of. by rewrite Hget. }
  assert (Hdr : holds_one_of bm ["d"; "D"]%char rc = bool_decide (cur ∈ ["d"; "D"]%char)).
  { unfold holds_one_of. by rewrite Hget. }
  split; simpl; try done.
  - rewrite filter_app, filter_cons, filter_nil, Hsw, si_switches0.
    destruct (bool_decide (cur ∈ ["s"; "S"]%char));
      [by rewrite decide_True|by rewrite decide_False, app_nil_r].
  - rewrite filter_app, filter_cons, filter_nil, Hdr, si_doors0.
    destruct (bool_decide (cur ∈ ["d"; "D"]%char));
      [by rewrite decide_True|by rewrite decide_False, app_nil_r].
  - clear Hsw Hdr. case_bool_decide; [|done]. rewrite length_app. simpl. lia.
  - clear Hsw Hdr. intros rc' char. rewrite elem_of_app, list_elem_of_singleton.
    case_bool_decide as Hsym.
    + destruct (decide (rc' = rc)) as [->|Hne].
      * rewrite lookup_insert_eq, Hget. naive_solver.
      * rewrite lookup_insert_ne by done. rewrite si_initial0. naive_solver.
    + rewrite si_initial0. split; [naive_solver|].
      intros (? & [?| ->] & ?); [done|]. simplify_eq. done.
Qed.

Lemma scan_cells_inv bm wm seen coords e e' :
  scan_inv bm wm seen e → for_each coords scan_cell e = Some e' →
  scan_inv bm wm (seen ++ coords) e'.
Proof.
  revert seen e. induction coords as [|rc coords IH]; intros seen e Hinv H; simpl in H.
  - simplify_eq. by rewrite app_nil_r.
  - destruct (scan_cell e rc) as [e1|] eqn:Hcell; [|done].
    rewrite cons_middle, app_assoc. eapply IH; [|exact H].
    by eapply scan_cell_inv.
Qed.

Lemma scan_row_cells e row :
  scan_row e row =
  for_each (seq 0 (shape (base_map e)).2) (λ e col, scan_cell e (row, col)) e.
Proof. done. Qed.

Lemma scan_cell_base e rc e' : scan_cell e rc = Some e' → base_map e' = base_map e.
Proof.
  unfold scan_cell. intros H.
  destruct (grid_get (base_map e) rc); by simplify_eq/=.
Qed.

Lemma for_each_agree {A St} (I : St → Prop) (xs : list A)
    (body1 body2 : St → A → option St) st :
  (∀ s x s', I s → body1 s x = Some s' → I s') →
  (∀ s x, I s → body1 s x = body2 s x) →
  I st → for_each xs body1 st = for_each xs body2 st.
Proof.
  intros Hpres Hagree. revert st.
  induction xs as [|x xs IH]; intros st Hst; simpl; [done|].
  rewrite <- (Hagree st x Hst).
  destruct (body1 st x) as [s1|] eqn:Hx; [|done]. apply IH. by eapply Hpres.
Qed.

(** The loop nest of [__init__] visits the coordinates of the base layout
    in order. *)
Lemma init_registry_cells bm e :
  base_map e = bm →
  for_each (seq 0 (shape bm).1) scan_row e = for_each (all_coords bm) scan_cell e.
Proof.
  intros Hbm. unfold all_coords. rewrite <- for_each_nested.
  symmetry. apply (for_each_agree (λ s, base_map s = bm)); [| |done].
  - intros s row s' Hs Hrun.
    eapply (for_each_inv (λ s1, base_map s1 = bm)); [|exact Hs|exact Hrun].
    intros s1 col s2 _ Hs1 Hc. simpl in Hc. apply scan_cell_base in Hc. congruence.
  - intros s row Hs. by rewrite scan_row_cells, Hs.
Qed.

(** ** Every reachable state is well formed *)

Lemma init_registry_scan bm wm ags e :
  init_registry bm wm ags = Some e → scan_inv bm wm (all_coords bm) e.
Proof.
  unfold init_registry. rewrite (init_registry_cells bm) by done.
  intros Hrun. apply (scan_cells_inv bm wm [] _ _ _) in Hrun; [done|].
  split; simpl; try done.
  intros rc char. rewrite lookup_empty. split; [done|].
  by intros (_ & ?%elem_of_nil & _).
Qed.

Lemma init_registry_wf bm wm ags e :
  same_shape wm bm → init_registry bm wm ags = Some e → wf e.
Proof.
  intros Hshape [] %init_registry_scan.
  split.
  - by rewrite si_world0, si_base0.
  - by rewrite si_base0.
  - by rewrite si_base0.
  - by rewrite si_base0.
  - done.
  - by rewrite si_snapshot0, si_prev0.
  - by rewrite si_on0, si_off0, si_prev0.
  - by rewrite si_on0.
  - by rewrite si_off0.
  - by rewrite si_first0, si_last0.
  - by rewrite si_first0, si_on0, si_off0.
Qed.

Lemma with_world_wf e updates wm ags :
  wf e → update_map (world_map e) updates = Some wm → wf (with_world e wm ags).
Proof.
  intros [] Hup. split; simpl; try done.
  eapply same_shape_trans; [by eapply update_map_shape|done].
Qed.

Lemma with_counters_wf e successes t : wf e → wf (with_counters e successes t).
Proof. intros []. by split. Qed.

Lemma reset_world_shape (items : list (coord * ascii)) g g' :
  for_each items (λ wm item, grid_set wm item.1 item.2) g = Some g' →
  same_shape g' g.
Proof.
  intros H.
  eapply (for_each_inv (λ g1, same_shape g1 g)); [|apply same_shape_refl|exact H].
  intros s u s' _ Hs Hset. simpl in Hset.
  eapply same_shape_trans; [|exact Hs]. by eapply grid_set_shape.
Qed.

Lemma custom_reset_wf e e' : wf e → custom_reset e = Some e' → wf e'.
Proof.
  intros [] Hreset. unfold custom_reset in Hreset.
  destruct (for_each _ _ (world_map e)) as [wm|] eqn:Hwm; [|discriminate].
  simpl in Hreset. injection Hreset as <-.
  split; simpl; try done.
  eapply same_shape_trans; [by eapply reset_world_shape|done].
Qed.

(** What [custom_map_update] computes, field by field. *)
Lemma custom_map_update_Some e e' :
  custom_map_update e = Some e' →
  ∃ wm,
    count_activated (world_map e) (switch_locations e)
      = Some (switches_on (world_map e) (switch_locations e)) ∧
    update_map (world_map e)
      (door_updates (door_locations e)
         (door_symbol (bool_decide
            (switches_on (world_map e) (switch_locations e) = switch_count e))))
      = Some wm ∧
    e' = {|
      base_map := base_map e;
      world_map := wm;
      agents :=
        add_reward (activation_delta e * GIVE_EXTERNAL_SWITCH_REWARD) <$> agents e;
      initial_map_state := initial_map_state e;
      switch_locations := switch_locations e;
      door_locations := door_locations e;
      switch_count := switch_count e;
      prev_activated_switch_count := switches_on (world_map e) (switch_locations e);
      timestep := timestep e;
      total_pulled_on :=
        if negb (activation_delta e =? 0)
        then total_pulled_on e + Z.max 0 (activation_delta e)
        else total_pulled_on e;
      total_pulled_off :=
        if negb (activation_delta e =? 0)
        then total_pulled_off e + Z.max 0 (- activation_delta e)
        else total_pulled_off e;
      timestep_first_switch_pull :=
        if negb (activation_delta e =? 0) && isnan (timestep_first_switch_pull e)
        then PyInt (timestep e)
        else timestep_first_switch_pull e;
      timestep_last_switch_pull :=
        if negb (activation_delta e =? 0)
        then PyInt (timestep e)
        else timestep_last_switch_pull e;
      switches_on_at_termination :=
        if negb (activation_delta e =? 0)
        then switches_on (world_map e) (switch_locations e)
        else switches_on_at_termination e;
      total_successes := total_successes e
    |}.
Proof.
  unfold custom_map_update. intros H.
  destruct (count_activated _ _) as [n|] eqn:Hn; [|discriminate].
  pose proof (count_activated_Some _ _ _ Hn) as ->. simpl in H.
  destruct (update_map _ _) as [wm|] eqn:Hwm; [|discriminate].
  simpl in H. injection H as <-. by exists wm.
Qed.

Lemma custom_map_update_wf e e' : wf e → custom_map_update e = Some e' → wf e'.
Proof.
  intros [] (wm & _ & Hwm & ->)%custom_map_update_Some.
  unfold activation_delta.
  pose proof (switches_on_bounds (world_map e) (switch_locations e)) as Hb.
  split; simpl; try done.
  - eapply same_shape_trans; [by eapply update_map_shape|done].
  - destruct (Z.eqb_spec (switches_on (world_map e) (switch_locations e)
                          - prev_activated_switch_count e) 0); simpl; lia.
  - destruct (Z.eqb_spec (switches_on (world_map e) (switch_locations e)
                          - prev_activated_switch_count e) 0); simpl; lia.
  - destruct (Z.eqb_spec (switches_on (world_map e) (switch_locations e)
                          - prev_activated_switch_count e) 0); simpl; lia.
  - destruct (Z.eqb_spec (switches_on (world_map e) (switch_locations e)
                          - prev_activated_switch_count e) 0); simpl; lia.
  - destruct (Z.eqb_spec (switches_on (world_map e) (switch_locations e)
                          - prev_activated_switch_count e) 0); simpl; [done|].
    by destruct (timestep_first_switch_pull e).
  - destruct (Z.eqb_spec (switches_on (world_map e) (switch_locations e)
                          - prev_activated_switch_count e) 0); simpl; [done|].
    split.
    + by destruct (timestep_first_switch_pull e).
    + lia.
Qed.

Lemma MapEnv_step_Some E actions e base :
  MapEnv_step E actions e = Some base →
  ∃ wm,
    update_map (world_map e) (apply_actions E actions e).1 = Some wm ∧
    custom_map_update (with_world e wm (apply_actions E actions e).2) = Some base.1 ∧
    base.2 = assemble E actions base.1.
Proof.
  unfold MapEnv_step. intros H.
  destruct (update_map _ _) as [wm|] eqn:Hwm; [|discriminate]. simpl in H.
  destruct (custom_map_update _) as [e1|] eqn:He1; [|discriminate].
  simpl in H. injection H as <-. by exists wm.
Qed.

Lemma step_Some E actions e e' r :
  step E actions e = Some (e', r) →
  ∃ base first_agent reward,
    MapEnv_step E actions e = Some base ∧
    head (actions.*1) = Some first_agent ∧
    rewards base.2 !! first_agent = Some reward ∧
    let successes :=
      if exceeds_threshold reward
      then total_successes base.1 + 1
      else total_successes base.1 in
    e' = with_counters base.1 successes (timestep base.1 + 1) ∧
    r = {| observations := observations base.2;
           rewards := rewards base.2;
           dones := dones base.2;
           step_info :=
             {[ first_agent :=
                  create_extra_info_dict
                    (with_counters base.1 successes (timestep base.1)) ]}
             ∪ step_info base.2 |}.
Proof.
  unfold step. intros H.
  destruct (MapEnv_step E actions e) as [base|]; [|discriminate]. simpl in H.
  destruct (head (actions.*1)) as [first_agent|]; [|discriminate]. simpl in H.
  destruct (rewards base.2 !! first_agent) as [reward|] eqn:Hr; [|discriminate].
  simpl in H. injection H as <- <-. by exists base, first_agent, reward.
Qed.

Lemma episode_step_wf e e' : wf e → episode_step e e' → wf e'.
Proof.
  intros Hwf Hep. revert Hwf.
  destruct Hep as [e0 updates wm ags Hup|e0 e1 Hup|E actions e0 e1 r Hstep];
    intros Hwf.
  - by eapply with_world_wf.
  - by eapply custom_map_update_wf.
  - apply step_Some in Hstep as (base & fa & rw & Hbase & _ & _ & -> & _).
    apply MapEnv_step_Some in Hbase as (wm & Hwm & Hcmu & _).
    apply with_counters_wf. eapply custom_map_update_wf; [|exact Hcmu].
    by eapply with_world_wf.
Qed.

Lemma reachable_wf e : reachable e → wf e.
Proof.
  induction 1 as [bm wm ags e Hs Hinit|e e' _ IH Hreset|e e' _ IH Hstep].
  - by eapply init_registry_wf.
  - by eapply custom_reset_wf.
  - by eapply episode_step_wf.
Qed.

(** ** The coordination pass on a well-formed state *)

Lemma registered_in_range e rc :
  wf e → rc ∈ switch_locations e ∨ rc ∈ door_locations e →
  is_Some (grid_get (world_map e) rc).
Proof.
  intros [] Hreg. apply (same_shape_get (base_map e)); [by symmetry|].
  rewrite wf_switches0, wf_doors0, !elem_of_scanned in Hreg.
  destruct Hreg as [[_ (char & -> & _)]|[_ (char & -> & _)]]; eauto.
Qed.

Lemma switch_not_door e rc :
  wf e → rc ∈ switch_locations e → rc ∉ door_locations e.
Proof.
  intros [] Hsw. rewrite wf_doors0. apply scanned_disjoint. by rewrite <- wf_switches0.
Qed.

Lemma custom_map_update_total e : wf e → is_Some (custom_map_update e).
Proof.
  intros Hwf. unfold custom_map_update.
  rewrite count_activated_total
    by (intros rc Hrc; apply registered_in_range; auto).
  simpl.
  destruct (update_map_total (world_map e)
    (door_updates (door_locations e)
       (door_symbol (bool_decide
          (switches_on (world_map e) (switch_locations e) = switch_count e)))))
    as [wm ->]; [|by eexists].
  intros u [Hu _]%elem_of_door_updates. apply registered_in_range; auto.
Qed.

(** The door batch leaves the switch cells alone, so the count the pass
    has just made is still the count on the grid it leaves. *)
Lemma custom_map_update_count e e' :
  wf e → custom_map_update e = Some e' →
  switches_on (world_map e') (switch_locations e')
  = switches_on (world_map e) (switch_locations e).
Proof.
  intros Hwf (wm & _ & Hwm & ->)%custom_map_update_Some. simpl.
  apply switches_on_ext. intros rc Hrc.
  rewrite (update_map_doors _ _ _ _ rc Hwm).
  rewrite decide_False; [done|]. by apply switch_not_door.
Qed.

Lemma custom_map_update_doors e e' :
  wf e → custom_map_update e = Some e' → doors_follow_switches e'.
Proof.
  intros Hwf Hup. unfold doors_follow_switches.
  rewrite (custom_map_update_count e e' Hwf Hup).
  apply custom_map_update_Some in Hup as (wm & _ & Hwm & ->). simpl.
  intros rc Hrc. rewrite (update_map_doors _ _ _ _ rc Hwm).
  by rewrite decide_True.
Qed.


(** ** Reset on a well-formed state *)

Lemma custom_reset_Some e e' :
  custom_reset e = Some e' →
  ∃ wm,
    for_each (map_to_list (initial_map_state e))
      (λ wm item, grid_set wm item.1 item.2) (world_map e) = Some wm ∧
    e' = {|
      base_map := base_map e;
      world_map := wm;
      agents := agents e;
      initial_map_state := initial_map_state e;
      switch_locations := switch_locations e;
      door_locations := door_locations e;
      switch_count := switch_count e;
      prev_activated_switch_count := 0;
      timestep := 0;
      total_pulled_on := 0;
      total_pulled_off := 0;
      timestep_first_switch_pull := PyNaN;
      timestep_last_switch_pull := PyNaN;
      switches_on_at_termination := 0;
      total_successes := 0
    |}.
Proof.
  unfold custom_reset. intros H.
  destruct (for_each _ _ (world_map e)) as [wm|] eqn:Hwm; [|discriminate].
  simpl in H. injection H as <-. by exists wm.
Qed.

Lemma custom_reset_total e : wf e → is_Some (custom_reset e).
Proof.
  intros Hwf. unfold custom_reset.
  destruct (for_each_total (λ g1, same_shape g1 (world_map e))
              (map_to_list (initial_map_state e))
              (λ wm item, grid_set wm item.1 item.2) (world_map e))
    as (wm & -> & _); [|apply same_shape_refl|by eexists].
  intros g [rc char] Hin Hg. apply elem_of_map_to_list in Hin.
  apply (wf_initial e Hwf) in Hin as (Hget & _ & _).
  destruct (grid_set_is_Some g rc char) as [g' Hg'].
  { apply (same_shape_get (base_map e)); [|by eauto].
    eapply same_shape_trans; [|symmetry; exact Hg]. symmetry. apply (wf_shape e Hwf). }
  exists g'. split; [done|].
  eapply same_shape_trans; [|exact Hg]. by eapply grid_set_shape.
Qed.

(** Writes to distinct cells: after the whole batch every written cell
    holds what was written to it. *)
Lemma reset_world_cells (items : list (coord * ascii)) g g' rc char :
  NoDup items.*1 →
  for_each items (λ wm item, grid_set wm item.1 item.2) g = Some g' →
  (rc, char) ∈ items → grid_get g' rc = Some char.
Proof.
  revert g. induction items as [|[rc0 c0] items IH]; intros g Hnd Hrun Hin.
  - by apply elem_of_nil in Hin.
  - simpl in Hrun, Hnd. apply NoDup_cons in Hnd as [Hfresh Hnd].
    destruct (grid_set g rc0 c0) as [g1|] eqn:Hset; [|discriminate].
    apply elem_of_cons in Hin as [Heq|Hin]; [|by eapply IH].
    simplify_eq.
    assert (Hframe : grid_get g' rc0 = grid_get g1 rc0).
    { eapply (for_each_inv (λ g2, grid_get g2 rc0 = grid_get g1 rc0));
        [|done|exact Hrun].
      intros s [rc1 c1] s' Hin1 Hs Hset1. simpl in Hset1.
      rewrite (grid_get_set _ _ _ _ rc0 Hset1), decide_False; [done|].
      intros ->. apply Hfresh. apply list_elem_of_fmap. by exists (rc1, c1). }
    rewrite Hframe, (grid_get_set _ _ _ _ rc0 Hset). by rewrite decide_True.
Qed.

(** Writing again what the cells already hold changes nothing. *)
Lemma reset_world_again (items : list (coord * ascii)) g :
  (∀ rc char, (rc, char) ∈ items → grid_get g rc = Some char) →
  for_each items (λ wm item, grid_set wm item.1 item.2) g = Some g.
Proof.
  induction items as [|[rc0 c0] items IH]; intros Hheld; [done|].
  simpl. rewrite grid_set_same by (apply Hheld; by left).
  apply IH. intros rc char Hin. apply Hheld. by right.
Qed.

Lemma custom_reset_idempotent e e' :
  custom_reset e = Some e' → custom_reset e' = Some e'.
Proof.
  intros (wm & Hwm & ->)%custom_reset_Some. unfold custom_reset. simpl.
  rewrite reset_world_again; [done|].
  intros rc char Hin. eapply reset_world_cells; [|exact Hwm|exact Hin].
  apply NoDup_fst_map_to_list.
Qed.

(** ** The demonstration environment *)

Lemma demo_state_init : init_registry demo_base_map demo_world ∅ = Some demo_state.
Proof. vm_compute. reflexivity. Qed.

Lemma demo_state_reachable : reachable demo_state.
Proof. eapply reach_init; [|exact demo_state_init]. reflexivity. Qed.

(** ** Doors and switches *)



(** C9. The coordination pass writes to the grid only through the batch
    of door updates: every update of the batch is at a registered door
    coordinate, so every cell outside [door_locations], and every switch
    cell in particular, holds what it held before. *)
Theorem custom_map_update_touches_doors_only (e e' : SwitchEnv) :
  reachable e → custom_map_update e = Some e' →
  (∃ door_char,
     update_map (world_map e) (door_updates (door_locations e) door_char)
       = Some (world_map e') ∧
     ∀ u, u ∈ door_updates (door_locations e) door_char →
       (u.1.1, u.1.2) ∈ door_locations e) ∧
  (∀ rc, rc ∉ door_locations e →
     grid_get (world_map e') rc = grid_get (world_map e) rc) ∧
  (∀ rc, rc ∈ switch_locations e →
     grid_get (world_map e') rc = grid_get (world_map e) rc).
Proof.
  intros Hwf%reachable_wf (wm & _ & Hwm & ->)%custom_map_update_Some. simpl.
  assert (Hout : ∀ rc, rc ∉ door_locations e → grid_get wm rc = grid_get (world_map e) rc).
  { intros rc Hrc. rewrite (update_map_doors _ _ _ _ rc Hwm). by rewrite decide_False. }
  split; [|split].
  - eexists. split; [exact Hwm|]. by intros u [Hu _]%elem_of_door_updates.
  - exact Hout.
  - intros rc Hrc. apply Hout. by apply switch_not_door.
Qed.

Lemma custom_map_update_touches_doors_only_witness :
  ∃ e', custom_map_update demo_state = Some e' ∧
        grid_get (world_map e') (1, 1)%nat = Some "S"%char ∧
        grid_get (world_map e') (0, 0)%nat = Some "@"%char.
Proof.
  destruct (custom_map_update demo_state) as [e'|] eqn:He'.
  - exists e'. split; [reflexivity|].
    destruct (custom_map_update_touches_doors_only demo_state e'
                demo_state_reachable He') as (_ & Hout & Hsw).
    split.
    + rewrite Hsw; [reflexivity|]. vm_compute. apply list_elem_of_here.
    + rewrite Hout; [reflexivity|]. vm_compute.
      intros H. repeat (apply elem_of_cons in H as [H|H]; [discriminate H|]).
      by apply elem_of_nil in H.
  - vm_compute in He'. discriminate He'.
Defined.

(** ** Episode metrics *)




(** C10. In every reachable state the pulls balance:
    [total_pulled_on - total_pulled_off] is the cached activation count.
    The totals and the cached count are all zero after a reset, and after
    every run of the coordination pass the cached count is the number of
    activated switches just counted and the totals balance to it. *)
Theorem pulls_balance (e : SwitchEnv) :
  reachable e →
  total_pulled_on e - total_pulled_off e = prev_activated_switch_count e ∧
  (∀ e', custom_reset e = Some e' →
     total_pulled_on e' = 0 ∧ total_pulled_off e' = 0 ∧
     prev_activated_switch_count e' = 0) ∧
  (∀ e', custom_map_update e = Some e' →
     prev_activated_switch_count e' = switches_on (world_map e) (switch_locations e) ∧
     total_pulled_on e' - total_pulled_off e'
       = switches_on (world_map e) (switch_locations e)).
Proof.
  intros Hwf%reachable_wf. split; [apply (wf_balance e Hwf)|split].
  - by intros e' (wm & _ & ->)%custom_reset_Some.
  - intros e' Hup. pose proof (custom_map_update_wf e e' Hwf Hup) as Hwf'.
    rewrite (wf_balance e' Hwf').
    by apply custom_map_update_Some in Hup as (wm & _ & _ & ->).
Qed.

Lemma pulls_balance_witness :
  ∃ e', custom_map_update demo_state = Some e' ∧
        total_pulled_on e' - total_pulled_off e' = 2.
Proof.
  destruct (custom_map_update demo_state) as [e'|] eqn:He'.
  - exists e'. split; [reflexivity|].
    destruct (pulls_balance demo_state demo_state_reachable) as (_ & _ & Hpass).
    destruct (Hpass e' He') as [_ ->]. reflexivity.
  - vm_compute in He'. discriminate He'.
Defined.

Lemma custom_map_update_totals e e' :
  custom_map_update e = Some e' →
  total_pulled_on e' = total_pulled_on e + Z.max 0 (activation_delta e) ∧
  total_pulled_off e' = total_pulled_off e + Z.max 0 (- activation_delta e).
Proof.
  intros (wm & _ & _ & ->)%custom_map_update_Some. simpl.
  destruct (Z.eqb_spec (activation_delta e) 0) as [->|_]; simpl; lia.
Qed.

Lemma episode_step_totals e e' :
  episode_step e e' →
  total_pulled_on e ≤ total_pulled_on e' ∧ total_pulled_off e ≤ total_pulled_off e'.
Proof.
  intros [e0 updates wm ags Hup|e0 e1 Hup|E actions e0 e1 r Hstep].
  - simpl. lia.
  - apply custom_map_update_totals in Hup. lia.
  - apply step_Some in Hstep as (base & fa & rw & Hbase & _ & _ & -> & _).
    apply MapEnv_step_Some in Hbase as (wm & _ & Hup & _).
    apply custom_map_update_totals in Hup. simpl in *. lia.
Qed.

(** C8. Inside an episode, that is along any sequence of engine edits,
    coordination passes and steps with no reset in between,
    [total_pulled_on] and [total_pulled_off] never decrease; each run of
    the coordination pass adds [max(0, delta)] to the first and
    [max(0, -delta)] to the second, neither of which is negative. *)
Theorem pull_totals_monotone (e e' : SwitchEnv) :
  rtc episode_step e e' →
  total_pulled_on e ≤ total_pulled_on e' ∧
  total_pulled_off e ≤ total_pulled_off e' ∧
  (∀ e'', custom_map_update e' = Some e'' →
     total_pulled_on e'' = total_pulled_on e' + Z.max 0 (activation_delta e') ∧
     total_pulled_off e'' = total_pulled_off e' + Z.max 0 (- activation_delta e') ∧
     0 ≤ Z.max 0 (activation_delta e') ∧
     0 ≤ Z.max 0 (- activation_delta e')).
Proof.
  intros Hrun. split; [|split].
  - induction Hrun as [|e0 e1 e2 Hstep _ IH]; [lia|].
    apply episode_step_totals in Hstep. lia.
  - induction Hrun as [|e0 e1 e2 Hstep _ IH]; [lia|].
    apply episode_step_totals in Hstep. lia.
  - intros e'' Hup. apply custom_map_update_totals in Hup. lia.
Qed.

Lemma pull_totals_monotone_witness :
  ∃ e', custom_map_update demo_state = Some e' ∧
        total_pulled_on demo_state ≤ total_pulled_on e' ∧
        total_pulled_off demo_state ≤ total_pulled_off e'.
Proof.
  destruct (custom_map_update demo_state) as [e'|] eqn:He'.
  - exists e'. split; [reflexivity|].
    destruct (pull_totals_monotone demo_state e') as (Hon & Hoff & _).
    + apply rtc_once. apply ep_update. exact He'.
    + split; [exact Hon|exact Hoff].
  - vm_compute in He'. discriminate He'.
Defined.

(** C5. In every reachable state the two pull timesteps are unset
    together, and they are unset exactly when nothing has been pulled since
    the reset, which unsets both.  A coordination pass whose activation
    delta is zero leaves both as they are; the first pass whose delta is
    not zero sets both to the current timestep (an integer, also when it is
    0, and so not the unset value); a later pass whose delta is not zero
    sets the last pull to the current timestep and keeps the first. *)
Theorem pull_timesteps_law (e e' : SwitchEnv) :
  reachable e → custom_map_update e = Some e' →
  (timestep_first_switch_pull e = PyNaN ↔ timestep_last_switch_pull e = PyNaN) ∧
  (timestep_first_switch_pull e = PyNaN ↔
     total_pulled_on e = 0 ∧ total_pulled_off e = 0) ∧
  (∀ e0, custom_reset e = Some e0 →
     timestep_first_switch_pull e0 = PyNaN ∧ timestep_last_switch_pull e0 = PyNaN) ∧
  (activation_delta e = 0 →
     timestep_first_switch_pull e' = timestep_first_switch_pull e ∧
     timestep_last_switch_pull e' = timestep_last_switch_pull e) ∧
  (activation_delta e ≠ 0 → timestep_first_switch_pull e = PyNaN →
     timestep_first_switch_pull e' = PyInt (timestep e) ∧
     timestep_last_switch_pull e' = PyInt (timestep e) ∧
     PyInt (timestep e) ≠ PyNaN) ∧
  (activation_delta e ≠ 0 → ∀ t, timestep_first_switch_pull e = PyInt t →
     timestep_first_switch_pull e' = PyInt t ∧
     timestep_last_switch_pull e' = PyInt (timestep e)).
Proof.
  intros Hwf%reachable_wf (wm & _ & _ & ->)%custom_map_update_Some. simpl.
  pose proof (wf_first_last e Hwf) as Hfl. pose proof (wf_unset e Hwf) as Hun.
  split; [|split; [|split; [|split; [|split]]]].
  - destruct (timestep_first_switch_pull e), (timestep_last_switch_pull e);
      simpl in Hfl; split; congruence.
  - rewrite <- Hun. by destruct (timestep_first_switch_pull e).
  - by intros e0 (wm0 & _ & ->)%custom_reset_Some.
  - intros ->. done.
  - intros Hd ->. apply Z.eqb_neq in Hd. rewrite Hd. done.
  - intros Hd t ->. apply Z.eqb_neq in Hd. rewrite Hd. done.
Qed.

Lemma pull_timesteps_law_witness :
  ∃ e', custom_map_update demo_state = Some e' ∧
        timestep_first_switch_pull e' = PyInt 0 ∧
        timestep_last_switch_pull e' = PyInt 0.
Proof.
  destruct (custom_map_update demo_state) as [e'|] eqn:He'.
  - exists e'. split; [reflexivity|].
    destruct (pull_timesteps_law demo_state e' demo_state_reachable He')
      as (_ & _ & _ & _ & Hfirst & _).
    destruct Hfirst as (H1 & H2 & _); [by vm_compute|reflexivity|].
    split; [exact H1|exact H2].
  - vm_compute in He'. discriminate He'.
Defined.

(** ** The registry over the life of an environment *)

Lemma lifecycle_step_registry e e' :
  lifecycle_step e e' →
  base_map e' = base_map e ∧
  switch_locations e' = switch_locations e ∧
  switch_count e' = switch_count e.
Proof.
  intros [Hreset|Hep].
  - by apply custom_reset_Some in Hreset as (wm & _ & ->).
  - destruct Hep as [e0 updates wm ags Hup|e0 e1 Hup|E actions e0 e1 r Hstep].
    + done.
    + by apply custom_map_update_Some in Hup as (wm & _ & _ & ->).
    + apply step_Some in Hstep as (base & fa & rw & Hbase & _ & _ & -> & _).
      apply MapEnv_step_Some in Hbase as (wm & _ & Hup & _).
      by apply custom_map_update_Some in Hup as (wm' & _ & _ & ->).
Qed.

Lemma lifecycle_registry e e' :
  rtc lifecycle_step e e' →
  base_map e' = base_map e ∧
  switch_locations e' = switch_locations e ∧
  switch_count e' = switch_count e.
Proof.
  induction 1 as [|e0 e1 e2 Hstep _ IH]; [done|].
  apply lifecycle_step_registry in Hstep. intuition congruence.
Qed.

Lemma lifecycle_reachable e e' :
  reachable e → rtc lifecycle_step e e' → reachable e'.
Proof.
  intros Hr Hrun. induction Hrun as [|e0 e1 e2 Hstep _ IH]; [done|].
  apply IH. destruct Hstep; [by eapply reach_reset|by eapply reach_episode].
Qed.

(** C3. After construction [switch_locations] is what a scan of the base
    layout finds, and [switch_count] is its length; the argument
    [num_switches] does not enter.  No later reset, engine edit,
    coordination pass or step changes either, and the solved test of the
    coordination pass compares the activation count with that scanned
    count. *)
Theorem switch_registry_is_scanned (bm wm : grid) (ags : gmap string Agent)
    (e0 : SwitchEnv) :
  same_shape wm bm → init_registry bm wm ags = Some e0 →
  switch_locations e0 = scanned bm ["s"; "S"]%char ∧
  switch_count e0 = Z.of_nat (length (switch_locations e0)) ∧
  ∀ e, rtc lifecycle_step e0 e →
    switch_locations e = switch_locations e0 ∧
    switch_count e = switch_count e0 ∧
    ∀ e', custom_map_update e = Some e' →
      update_map (world_map e)
        (door_updates (door_locations e)
           (door_symbol (bool_decide
              (switches_on (world_map e) (switch_locations e)
                 = Z.of_nat (length (scanned bm ["s"; "S"]%char))))))
      = Some (world_map e').
Proof.
  intros Hshape Hinit.
  pose proof (init_registry_wf _ _ _ _ Hshape Hinit) as Hwf0.
  pose proof (init_registry_scan _ _ _ _ Hinit) as Hscan.
  pose proof (si_base _ _ _ _ Hscan) as Hbm.
  assert (Hsw : switch_locations e0 = scanned bm ["s"; "S"]%char).
  { rewrite (wf_switches e0 Hwf0). by rewrite Hbm. }
  split; [exact Hsw|]. split; [apply (wf_count e0 Hwf0)|].
  intros e Hrun. destruct (lifecycle_registry _ _ Hrun) as (_ & Hlocs & Hcount).
  split; [done|]. split; [done|].
  intros e' (wm' & _ & Hwm & ->)%custom_map_update_Some. simpl.
  rewrite <- Hsw, <- (wf_count e0 Hwf0), <- Hcount. exact Hwm.
Qed.

Lemma switch_registry_is_scanned_witness :
  switch_locations demo_state = [(1, 1); (1, 3)]%nat ∧ switch_count demo_state = 2.
Proof.
  destruct (switch_registry_is_scanned demo_base_map demo_world ∅ demo_state)
    as (Hlocs & Hcount & _).
  - reflexivity.
  - exact demo_state_init.
  - split; [rewrite Hlocs; vm_compute; reflexivity|rewrite Hcount; reflexivity].
Defined.

(** The scanned count is not the argument: with a hand-edited one-switch
    template that carries two switch symbols, one requested switch gives a
    registry of two. *)
Example scanned_count_is_not_the_argument :
  switch_count <$>
    SwitchEnv_init
      {| top_row := "@@@D@@@"; empty_row := "@     @";
         one_switch_row := "@s   s@"; two_switch_row := "@s   s@";
         bottom_row := "@@@D@@@" |} 1
  = Some 2.
Proof. vm_compute. reflexivity. Qed.

(** ** Reset *)

Lemma reset_world_frame (items : list (coord * ascii)) g g' rc :
  for_each items (λ wm item, grid_set wm item.1 item.2) g = Some g' →
  rc ∉ items.*1 → grid_get g' rc = grid_get g rc.
Proof.
  intros Hrun Hout. revert Hrun.
  apply (for_each_inv (λ g1, grid_get g1 rc = grid_get g rc)); [|done].
  intros s item s' Hin Hs Hset. simpl in Hset.
  rewrite (grid_get_set _ _ _ _ rc Hset), decide_False; [done|].
  intros ->. apply Hout. apply list_elem_of_fmap. by exists item.
Qed.

(** C7. In every reachable state a reset returns, and a second reset
    right after it returns the very same state.  The state after the reset
    has the base layout, the registry and the agents of the state before;
    on its grid every registered switch and door cell holds its symbol of the
    base layout and every other cell holds what it held before; the
    timestep, the pull totals, the termination snapshot and the success
    count are zero, both pull timesteps are unset, and the cached activation
    count is 0. *)
Theorem reset_twice_is_reset_once (e : SwitchEnv) :
  reachable e →
  ∃ e1,
    custom_reset e = Some e1 ∧
    custom_reset e1 = Some e1 ∧
    base_map e1 = base_map e ∧
    switch_locations e1 = switch_locations e ∧
    door_locations e1 = door_locations e ∧
    switch_count e1 = switch_count e ∧
    initial_map_state e1 = initial_map_state e ∧
    agents e1 = agents e ∧
    same_shape (world_map e1) (world_map e) ∧
    (∀ rc, rc ∈ switch_locations e ++ door_locations e →
       is_Some (grid_get (base_map e) rc) ∧
       grid_get (world_map e1) rc = grid_get (base_map e) rc) ∧
    (∀ rc, rc ∉ switch_locations e ++ door_locations e →
       grid_get (world_map e1) rc = grid_get (world_map e) rc) ∧
    timestep e1 = 0 ∧
    total_pulled_on e1 = 0 ∧
    total_pulled_off e1 = 0 ∧
    switches_on_at_termination e1 = 0 ∧
    total_successes e1 = 0 ∧
    timestep_first_switch_pull e1 = PyNaN ∧
    timestep_last_switch_pull e1 = PyNaN ∧
    prev_activated_switch_count e1 = 0.
Proof.
  intros Hwf%reachable_wf.
  destruct (custom_reset_total e Hwf) as [e1 He1].
  exists e1. split; [done|].
  split; [by eapply custom_reset_idempotent|].
  apply custom_reset_Some in He1 as (wm & Hwm & ->). simpl.
  do 6 (split; [done|]).
  split; [by eapply reset_world_shape|].
  split; [|split; [|done]].
  - intros rc Hrc.
    assert (Hsym : ∃ char, grid_get (base_map e) rc = Some char ∧
                           rc ∈ all_coords (base_map e) ∧
                           char ∈ ["s"; "S"; "d"; "D"]%char).
    { apply elem_of_app in Hrc as [Hrc|Hrc].
      - rewrite (wf_switches e Hwf), elem_of_scanned in Hrc.
        destruct Hrc as (? & char & ? & Hc). exists char. set_solver.
      - rewrite (wf_doors e Hwf), elem_of_scanned in Hrc.
        destruct Hrc as (? & char & ? & Hc). exists char. set_solver. }
    destruct Hsym as (char & Hget & Hin & Hchar). rewrite Hget.
    split; [by eexists|].
    eapply reset_world_cells; [apply NoDup_fst_map_to_list|exact Hwm|].
    apply elem_of_map_to_list. by apply (wf_initial e Hwf).
  - intros rc Hout. eapply reset_world_frame; [exact Hwm|].
    intros ((rc' & char) & -> & Hin)%list_elem_of_fmap. apply Hout.
    apply elem_of_map_to_list, (wf_initial e Hwf) in Hin
      as (Hget & Hin & Hsym).
    simpl. rewrite elem_of_app, (wf_switches e Hwf), (wf_doors e Hwf).
    rewrite !elem_of_scanned.
    assert (char ∈ ["s"; "S"]%char ∨ char ∈ ["d"; "D"]%char) as [?|?]
      by set_solver; [left|right]; eauto.
Qed.

Lemma reset_twice_is_reset_once_witness :
  ∃ e1, custom_reset demo_state = Some e1 ∧ custom_reset e1 = Some e1 ∧
        grid_get (world_map demo_state) (1, 1)%nat = Some "S"%char ∧
        grid_get (world_map e1) (1, 1)%nat = Some "s"%char ∧
        world_map e1 = ascii_to_numpy ["@@D@@"; "@s S@"; "@@d@@"]%string.
Proof.
  destruct (reset_twice_is_reset_once demo_state demo_state_reachable)
    as (e1 & H1 & H2 & _ & _ & _ & _ & _ & _ & _ & Hcells & _).
  exists e1. split; [exact H1|]. split; [exact H2|].
  split; [reflexivity|]. split.
  - destruct (Hcells (1, 1)%nat) as [_ ->]; [|reflexivity].
    apply list_elem_of_here.
  - vm_compute in H1. injection H1 as <-. reflexivity.
Defined.

(** ** The info dictionary of a step *)

Lemma extra_info_has_keys e key :
  key ∈ extra_info_keys → is_Some (create_extra_info_dict e !! key).
Proof.
  unfold extra_info_keys. intros H.
  repeat (apply elem_of_cons in H as [->|H]; [by eexists|]).
  by apply elem_of_nil in H.
Qed.

(** C6, as the code has it. When the actions mapping is not empty, the
    base step returns, and the rewards it returns have an entry for the
    first agent of the mapping, [step] returns, and the info dictionary it
    returns holds under the id of that first agent a dictionary with the six
    fields, read off the environment; under every other id it holds what
    the info of the base step held. *)
Theorem step_info_for_first_agent (E : Engine) (actions : list (string * Z))
    (e : SwitchEnv) (base : SwitchEnv * StepResult) (first_agent : string)
    (rest : list string) (reward : Q) :
  MapEnv_step E actions e = Some base →
  actions.*1 = first_agent :: rest →
  rewards base.2 !! first_agent = Some reward →
  ∃ e' r,
    step E actions e = Some (e', r) ∧
    step_info r !! first_agent = Some (create_extra_info_dict e') ∧
    (∀ key, key ∈ extra_info_keys →
       is_Some (create_extra_info_dict e' !! key)) ∧
    (∀ other, other ≠ first_agent →
       step_info r !! other = step_info base.2 !! other).
Proof.
  intros Hbase Hkeys Hreward. unfold step.
  rewrite Hbase, Hkeys. simpl. rewrite Hreward. simpl.
  eexists _, _. split; [reflexivity|]. simpl. split; [|split].
  - rewrite lookup_union_l' by (rewrite lookup_singleton_eq; by eexists).
    by rewrite lookup_singleton_eq.
  - intros key. apply extra_info_has_keys.
  - intros other Hne. rewrite lookup_union_r; [done|].
    by apply lookup_singleton_ne.
Qed.

Lemma step_info_for_first_agent_witness :
  ∃ e' r,
    step idle_engine two_agents demo_state = Some (e', r) ∧
    step_info r !! "agent-0"%string = Some (create_extra_info_dict e').
Proof.
  destruct (MapEnv_step idle_engine two_agents demo_state) as [base|] eqn:Hbase.
  - destruct (step_info_for_first_agent idle_engine two_agents demo_state base
                "agent-0"%string ["agent-1"%string] 0%Q Hbase)
      as (e' & r & Hstep & Hinfo & _).
    + reflexivity.
    + vm_compute in Hbase. injection Hbase as <-. reflexivity.
    + exists e', r. split; [exact Hstep|exact Hinfo].
  - vm_compute in Hbase. discriminate Hbase.
Defined.

(** C6, as stated, fails when two agents act: the info dictionary that
    [step] returns has no entry for the second agent. *)
Lemma step_info_misses_second_agent :
  ∃ e' r,
    step idle_engine two_agents demo_state = Some (e', r) ∧
    "agent-1"%string ∈ two_agents.*1 ∧
    step_info r !! "agent-1"%string = None.
Proof.
  destruct (step idle_engine two_agents demo_state) as [[e' r]|] eqn:Hstep.
  - exists e', r. split; [reflexivity|]. split.
    + apply list_elem_of_further, list_elem_of_here.
    + vm_compute in Hstep. injection Hstep as <- <-. reflexivity.
  - vm_compute in Hstep. discriminate Hstep.
Qed.

(** ** The map generator *)

Lemma ceil_half_exact n : 0 ≤ n ≤ 2 ^ 53 → ceil_half n = Some (ceil_div2 n).
Proof.
  intros Hn. unfold ceil_half, ceil_div2.
  assert (Hround : round53 n = n).
  { destruct (decide (n = 2 ^ 53)) as [->|Hne]; [by vm_compute|].
    unfold round53.
    assert (Z.log2 (Z.abs n) - 52 ≤ 0) as ->%Z.leb_le; [|done].
    rewrite Z.abs_eq by lia.
    destruct (decide (n = 0)) as [->|Hpos]; [by vm_compute|].
    assert (Z.log2 n < 53); [|lia].
    apply Z.log2_lt_pow2; lia. }
  rewrite Hround.
  assert ((2 ^ 1025 <=? Z.abs n) = false) as ->; [|done].
  apply Z.leb_gt. rewrite Z.abs_eq by lia.
  assert (2 ^ 53 < 2 ^ 1025) by (apply Z.pow_lt_mono_r; lia). lia.
Qed.

Lemma layout_switch_symbols_cons row layout :
  layout_switch_symbols (row :: layout)
  = switch_symbols row + layout_switch_symbols layout.
Proof. done. Qed.

Lemma layout_switch_symbols_app l1 l2 :
  layout_switch_symbols (l1 ++ l2)
  = layout_switch_symbols l1 + layout_switch_symbols l2.
Proof.
  induction l1 as [|row l1 IH]; [done|].
  rewrite <- app_comm_cons, !layout_switch_symbols_cons, IH. lia.
Qed.

Lemma layout_switch_symbols_insert layout i row row' :
  layout !! i = Some row → switch_symbols row' = switch_symbols row →
  layout_switch_symbols (<[i := row']> layout) = layout_switch_symbols layout.
Proof.
  revert i. induction layout as [|r layout IH]; intros [|i] Hi Heq; simplify_eq/=.
  - by rewrite !layout_switch_symbols_cons, Heq.
  - rewrite !layout_switch_symbols_cons. by erewrite IH.
Qed.

Lemma list_ascii_of_string_app s1 s2 :
  list_ascii_of_string (s1 ++ s2)
  = list_ascii_of_string s1 ++ list_ascii_of_string s2.
Proof. induction s1 as [|c s1 IH]; simpl; [done|by rewrite IH]. Qed.

Lemma list_ascii_of_str_take n s :
  list_ascii_of_string (str_take n s) = take n (list_ascii_of_string s).
Proof.
  revert s. induction n as [|n IH]; intros [|c s]; simpl; [done..|].
  by rewrite IH.
Qed.

Lemma list_ascii_of_str_drop n s :
  list_ascii_of_string (str_drop n s) = drop n (list_ascii_of_string s).
Proof. revert s. induction n as [|n IH]; intros [|c s]; simpl; auto. Qed.

(** Placing the spawn marker keeps the number of switch symbols of a row
    whose column 3 is not a switch symbol. *)
Lemma switch_symbols_place_spawn row :
  (∀ char, list_ascii_of_string row !! 3%nat = Some char → char ∉ ["s"; "S"]%char) →
  switch_symbols (place_spawn row) = switch_symbols row.
Proof.
  intros Hfree. unfold switch_symbols, place_spawn. f_equal.
  rewrite !list_ascii_of_string_app, list_ascii_of_str_take, list_ascii_of_str_drop.
  set (l := list_ascii_of_string row) in *.
  rewrite <- (take_drop 3 l) at 3.
  rewrite !filter_app, !length_app. f_equal.
  destruct (l !! 3%nat) as [char|] eqn:Hchar.
  - rewrite (drop_S l char 3 Hchar). simpl list_ascii_of_string.
    rewrite !filter_cons.
    rewrite (decide_False (P := (char ∈ _))) by by apply Hfree.
    rewrite decide_False; [done|]. set_solver.
  - apply lookup_ge_None in Hchar.
    rewrite !drop_ge by lia. simpl list_ascii_of_string.
    rewrite filter_cons, decide_False; [done|]. set_solver.
Qed.

(** What the loop of [construct_map] appends for a count of switches that
    is not negative. *)
Lemma fill_rows_rows T k n pm :
  0 ≤ n →
  ∃ rows,
    (fill_rows T k n pm).2 = pm ++ rows ∧
    length rows = k ∧
    Forall (λ row, row ∈ [empty_row T; one_switch_row T; two_switch_row T]) rows ∧
    (templates_ok T →
       layout_switch_symbols rows = n - Z.max 0 (n - 2 * Z.of_nat k)) ∧
    (n = 0 → rows = replicate k (empty_row T)).
Proof.
  revert n pm. induction k as [|k IH]; intros n pm Hn.
  - exists []. simpl. rewrite app_nil_r. repeat split; [done|]. intros _.
    unfold layout_switch_symbols. simpl. lia.
  - simpl fill_rows.
    destruct (Z.eqb_spec n 0) as [->|Hn0].
    { destruct (IH 0 (pm ++ [empty_row T])) as (rows & Heq & Hlen & Hall & Hcount & Hzero);
        [lia|].
      exists (empty_row T :: rows). rewrite Heq, <- app_assoc. simpl.
      split; [done|]. split; [by rewrite Hlen|]. split.
      { constructor; [set_solver|done]. }
      split.
      - intros HT. rewrite layout_switch_symbols_cons, (Hcount HT), (empty_no_switch T HT).
        lia.
      - intros _. by rewrite Hzero. }
    destruct (Z.eqb_spec n 1) as [->|Hn1].
    { destruct (IH (1 - 1) (pm ++ [one_switch_row T]))
        as (rows & Heq & Hlen & Hall & Hcount & _); [lia|].
      exists (one_switch_row T :: rows). rewrite Heq, <- app_assoc. simpl.
      split; [done|]. split; [by rewrite Hlen|]. split.
      { constructor; [set_solver|done]. }
      split; [|lia].
      intros HT. rewrite layout_switch_symbols_cons, (Hcount HT), (one_one_switch T HT).
      lia. }
    destruct (Z.ltb_spec 1 n) as [Hgt|]; [|lia].
    destruct (IH (n - 2) (pm ++ [two_switch_row T]))
      as (rows & Heq & Hlen & Hall & Hcount & _); [lia|].
    exists (two_switch_row T :: rows). rewrite Heq, <- app_assoc. simpl.
    split; [done|]. split; [by rewrite Hlen|]. split.
    { constructor; [set_solver|done]. }
    split; [|lia].
    intros HT. rewrite layout_switch_symbols_cons, (Hcount HT), (two_two_switches T HT).
    lia.
Qed.

(** The layout [construct_map] returns, given the two ceilings it takes:
    the border rows around the rows of the loop, one of which carries the
    spawn marker. *)
Lemma construct_map_rows T n h m :
  0 ≤ n → ceil_half n = Some h → ceil_half (Z.max 1 h) = Some m →
  1 ≤ m ≤ Z.max 1 h →
  ∃ rows row,
    length rows = Z.to_nat (Z.max 1 h) ∧
    Forall (λ row, row ∈ [empty_row T; one_switch_row T; two_switch_row T]) rows ∧
    (templates_ok T →
       layout_switch_symbols rows = n - Z.max 0 (n - 2 * Z.max 1 h)) ∧
    (n = 0 → rows = replicate (Z.to_nat (Z.max 1 h)) (empty_row T)) ∧
    rows !! (Z.to_nat m - 1)%nat = Some row ∧
    construct_map T n =
      Some ([top_row T] ++ <[(Z.to_nat m - 1)%nat := place_spawn row]> rows
              ++ [bottom_row T]).
Proof.
  intros Hn Hh Hm Hrange.
  destruct (fill_rows_rows T (Z.to_nat (Z.max 1 h)) n [top_row T] Hn)
    as (rows & Heq & Hlen & Hall & Hcount & Hzero).
  destruct (lookup_lt_is_Some_2 rows (Z.to_nat m - 1)%nat) as [row Hrow]; [lia|].
  exists rows, row. split; [done|]. split; [done|]. split.
  { intros HT. rewrite (Hcount HT). lia. }
  split; [done|]. split; [done|].
  unfold construct_map. rewrite Hh. cbn [mbind option_bind].
  rewrite Hm. cbn [mbind option_bind]. rewrite Heq.
  remember (Z.to_nat m - 1)%nat as j eqn:Hj.
  assert (Z.to_nat m = S j) as -> by lia.
  change ((([top_row T] ++ rows) ++ [bottom_row T]) !! S j)
    with ((rows ++ [bottom_row T]) !! j).
  rewrite lookup_app_l by lia. rewrite Hrow. cbn [mbind option_bind].
  change (<[S j := place_spawn row]> (([top_row T] ++ rows) ++ [bottom_row T]))
    with (top_row T :: <[j := place_spawn row]> (rows ++ [bottom_row T])).
  do 2 f_equal. apply insert_app_l. lia.
Qed.

(** C2, as the code has it. For templates that carry none, one and two
    switch symbols and keep column 3 free, and for every switch count [n]
    from 0 to [2^53], [construct_map] returns the top border row, then
    [max(1, ceil(n/2))] interior rows, then the bottom border row; the
    switch symbols of all rows together number [n]; and for [n = 0] the one
    interior row is the empty-row template with the spawn marker placed on
    it. *)
Theorem construct_map_layout (T : SwitchMapElements) (n : Z) :
  templates_ok T → 0 ≤ n ≤ 2 ^ 53 →
  ∃ rows,
    construct_map T n = Some ([top_row T] ++ rows ++ [bottom_row T]) ∧
    Z.of_nat (length rows) = Z.max 1 (ceil_div2 n) ∧
    layout_switch_symbols ([top_row T] ++ rows ++ [bottom_row T]) = n ∧
    (n = 0 → rows = [place_spawn (empty_row T)]).
Proof.
  intros HT Hn.
  assert (Hdiv : 0 ≤ ceil_div2 n ≤ 2 ^ 52 ∧ n ≤ 2 * ceil_div2 n).
  { unfold ceil_div2. change (2 ^ 52) with 4503599627370496.
    change (2 ^ 53) with 9007199254740992 in Hn.
    pose proof (Z.div_mod (n + 1) 2). pose proof (Z.mod_pos_bound (n + 1) 2). lia. }
  assert (Hrows : 1 ≤ Z.max 1 (ceil_div2 n) ≤ 2 ^ 53).
  { change (2 ^ 52) with 4503599627370496 in Hdiv.
    change (2 ^ 53) with 9007199254740992. lia. }
  destruct (construct_map_rows T n (ceil_div2 n) (ceil_div2 (Z.max 1 (ceil_div2 n))))
    as (rows & row & Hlen & Hall & Hcount & Hzero & Hrow & Heq).
  - lia.
  - by apply ceil_half_exact.
  - apply ceil_half_exact. lia.
  - unfold ceil_div2 at 1 3.
    pose proof (Z.div_mod (Z.max 1 (ceil_div2 n) + 1) 2).
    pose proof (Z.mod_pos_bound (Z.max 1 (ceil_div2 n) + 1) 2). lia.
  - eexists. split; [exact Heq|]. split; [|split].
    + rewrite length_insert. lia.
    + rewrite !layout_switch_symbols_app.
      rewrite (layout_switch_symbols_insert rows _ row); [| done |].
      * rewrite (Hcount HT).
        unfold layout_switch_symbols. simpl.
        rewrite (top_no_switch T HT), (bottom_no_switch T HT). lia.
      * apply switch_symbols_place_spawn. intros char.
        apply (spawn_column_free T HT).
        by eapply (proj1 (Forall_forall _ _) Hall), list_elem_of_lookup_2.
    + intros ->. change (ceil_div2 0) with 0 in *.
      change (Z.max 1 0) with 1 in *. change (ceil_div2 1) with 1 in *.
      rewrite Hzero in Hrow |- * by done. simpl in Hrow |- *.
      by simplify_eq.
Qed.

Lemma templates_ok_switch_map_elements : templates_ok switch_map_elements.
Proof.
  split; try reflexivity.
  intros row char Hrow Hchar.
  repeat (apply elem_of_cons in Hrow as [->|Hrow];
          [vm_compute in Hchar; injection Hchar as <-; set_solver|]).
  by apply elem_of_nil in Hrow.
Qed.

Lemma construct_map_layout_witness :
  ∃ rows,
    construct_map switch_map_elements 5 =
      Some (["@@@D@@@"%string] ++ rows ++ ["@@@D@@@"%string]) ∧
    Z.of_nat (length rows) = 3 ∧
    layout_switch_symbols (["@@@D@@@"%string] ++ rows ++ ["@@@D@@@"%string]) = 5.
Proof.
  destruct (construct_map_layout switch_map_elements 5
              templates_ok_switch_map_elements)
    as (rows & Heq & Hlen & Hcount & _).
  - split; [lia|]. by vm_compute.
  - exists rows. split; [exact Heq|]. split; [exact Hlen|exact Hcount].
Defined.

(** C2, as stated, fails twice.  For [n = 0] the interior row that
    [construct_map] returns is not the empty-row template: it carries the
    spawn marker.  And for [n = 2^53 + 1] the true division rounds
    [n / 2] down to [2^52], so the layout has one interior row fewer than
    [ceil(n/2)]. *)
Lemma construct_map_not_as_stated :
  (construct_map switch_map_elements 0
     = Some ["@@@D@@@"; "@  P  @"; "@@@D@@@"]%string ∧
   "@  P  @"%string ≠ empty_row switch_map_elements) ∧
  (∃ layout,
     construct_map switch_map_elements (2 ^ 53 + 1) = Some layout ∧
     Z.of_nat (length layout) = 2 ^ 52 + 2 ∧
     Z.max 1 (ceil_div2 (2 ^ 53 + 1)) + 2 = 2 ^ 52 + 3).
Proof.
  split; [split; [by vm_compute|by vm_compute]|].
  destruct (construct_map_rows switch_map_elements (2 ^ 53 + 1) (2 ^ 52) (2 ^ 51))
    as (rows & row & Hlen & _ & _ & _ & _ & Heq).
  - by vm_compute.
  - by vm_compute.
  - by vm_compute.
  - split; by vm_compute.
  - eexists. split; [exact Heq|]. split; [|by vm_compute].
    rewrite !length_app, length_insert, Hlen.
    change (length [top_row switch_map_elements]) with 1%nat.
    change (length [bottom_row switch_map_elements]) with 1%nat.
    change (Z.max 1 (2 ^ 52)) with (2 ^ 52). lia.
Qed.

(** ** More on the map generator *)

Lemma ceil_half_exact_abs n :
  - 2 ^ 53 ≤ n ≤ 2 ^ 53 → ceil_half n = Some (ceil_div2 n).
Proof.
  intros Hn. destruct (decide (0 ≤ n)); [apply ceil_half_exact; lia|].
  unfold ceil_half, ceil_div2.
  assert (Hround : round53 n = n).
  { destruct (decide (n = - 2 ^ 53)) as [->|Hne]; [by vm_compute|].
    unfold round53.
    assert (Z.log2 (Z.abs n) - 52 ≤ 0) as ->%Z.leb_le; [|done].
    rewrite Z.abs_neq by lia.
    assert (Z.log2 (- n) < 53); [|lia].
    apply Z.log2_lt_pow2; lia. }
  rewrite Hround.
  assert ((2 ^ 1025 <=? Z.abs n) = false) as ->; [|done].
  apply Z.leb_gt. rewrite Z.abs_neq by lia.
  assert (2 ^ 53 < 2 ^ 1025) by (apply Z.pow_lt_mono_r; lia). lia.
Qed.

Lemma fill_rows_exact T k n pm :
  0 ≤ n ≤ 2 * Z.of_nat k →
  (fill_rows T k n pm).2 =
    pm ++ replicate (Z.to_nat (n / 2)) (two_switch_row T)
       ++ replicate (Z.to_nat (n mod 2)) (one_switch_row T)
       ++ replicate (k - Z.to_nat (ceil_div2 n)) (empty_row T).
Proof.
  revert n pm. induction k as [|k IH]; intros n pm Hn.
  - assert (n = 0) as -> by lia. simpl. by rewrite app_nil_r.
  - simpl fill_rows.
    destruct (Z.eqb_spec n 0) as [->|Hn0].
    { rewrite IH by lia. change (0 / 2) with 0. change (0 mod 2) with 0.
      change (ceil_div2 0) with 0. simpl. by rewrite <- app_assoc, Nat.sub_0_r. }
    destruct (Z.eqb_spec n 1) as [->|Hn1].
    { rewrite IH by lia. change ((1 - 1) / 2) with 0. change ((1 - 1) mod 2) with 0.
      change (ceil_div2 (1 - 1)) with 0. change (1 / 2) with 0.
      change (1 mod 2) with 1. change (ceil_div2 1) with 1.
      simpl. rewrite <- app_assoc. change (Z.to_nat 0) with 0%nat.
      by rewrite !Nat.sub_0_r. }
    destruct (Z.ltb_spec 1 n) as [Hgt|]; [|lia].
    rewrite IH by lia. rewrite <- app_assoc. f_equal.
    assert (Hdiv : (n - 2) / 2 = n / 2 - 1 ∧ (n - 2) mod 2 = n mod 2 ∧
                   ceil_div2 (n - 2) = ceil_div2 n - 1 ∧ 1 ≤ n / 2 ∧
                   1 ≤ ceil_div2 n).
    { unfold ceil_div2. Z.div_mod_to_equations. lia. }
    destruct Hdiv as (-> & -> & -> & Hhalf & Hceil).
    replace (Z.to_nat (n / 2)) with (S (Z.to_nat (n / 2 - 1))) by lia.
    replace (S k - Z.to_nat (ceil_div2 n))%nat
      with (k - Z.to_nat (ceil_div2 n - 1))%nat by lia.
    done.
Qed.

Lemma interior_rows_length T n :
  0 ≤ n → Z.of_nat (length (interior_rows T n)) = Z.max 1 (ceil_div2 n).
Proof.
  intros Hn. unfold interior_rows, ceil_div2.
  rewrite !length_app, !length_replicate.
  case_decide as H0; simpl length; Z.div_mod_to_equations; lia.
Qed.

Lemma construct_map_exact (T : SwitchMapElements) (n : Z) :
  0 ≤ n ≤ 2 ^ 53 →
  ∃ row,
    interior_rows T n
      !! (Z.to_nat (ceil_div2 (Z.max 1 (ceil_div2 n))) - 1)%nat = Some row ∧
    construct_map T n =
      Some (<[Z.to_nat (ceil_div2 (Z.max 1 (ceil_div2 n))) := place_spawn row]>
              ([top_row T] ++ interior_rows T n ++ [bottom_row T])).
Proof.
  intros Hn.
  assert (Hdiv : 0 ≤ ceil_div2 n ≤ 2 ^ 52).
  { unfold ceil_div2. change (2 ^ 52) with 4503599627370496.
    change (2 ^ 53) with 9007199254740992 in Hn. Z.div_mod_to_equations. lia. }
  assert (Hrows : 1 ≤ Z.max 1 (ceil_div2 n) ≤ 2 ^ 53).
  { change (2 ^ 52) with 4503599627370496 in Hdiv.
    change (2 ^ 53) with 9007199254740992. lia. }
  set (m := ceil_div2 (Z.max 1 (ceil_div2 n))).
  assert (Hm : 1 ≤ m ≤ Z.max 1 (ceil_div2 n)).
  { unfold m, ceil_div2 at 1 3. Z.div_mod_to_equations. lia. }
  pose proof (interior_rows_length T n (proj1 Hn)) as Hlen.
  destruct (lookup_lt_is_Some_2 (interior_rows T n) (Z.to_nat m - 1)%nat)
    as [row Hrow]; [lia|].
  exists row. split; [done|].
  unfold construct_map. rewrite (ceil_half_exact n Hn). cbn [mbind option_bind].
  rewrite (ceil_half_exact (Z.max 1 (ceil_div2 n))) by lia.
  cbn [mbind option_bind]. fold m.
  assert (Hfill : (fill_rows T (Z.to_nat (Z.max 1 (ceil_div2 n))) n [top_row T]).2
                  = [top_row T] ++ interior_rows T n).
  { rewrite fill_rows_exact by (unfold ceil_div2; Z.div_mod_to_equations; lia).
    unfold interior_rows. do 3 f_equal.
    case_decide as H0.
    - subst n. by vm_compute.
    - replace (Z.to_nat (Z.max 1 (ceil_div2 n)) - Z.to_nat (ceil_div2 n))%nat
        with 0%nat; [done|].
      unfold ceil_div2. Z.div_mod_to_equations. lia. }
  rewrite Hfill, <- app_assoc.
  remember (Z.to_nat m - 1)%nat as j eqn:Hj.
  assert (Z.to_nat m = S j) as -> by lia.
  change (([top_row T] ++ interior_rows T n ++ [bottom_row T]) !! S j)
    with ((interior_rows T n ++ [bottom_row T]) !! j).
  rewrite lookup_app_l by lia. rewrite Hrow. done.
Qed.

(** X1. For a switch count from 0 to [2^53] the layout is the top border
    row, then the rows filled front to back (two-switch rows while two or
    more switches remain, a one-switch row for the last odd switch, a single
    empty row when there is none), then the bottom border row; the spawn
    marker goes on the interior row of index [ceil(num_rows / 2)], and no
    other row is touched. *)
Theorem construct_map_fills_front_to_back (T : SwitchMapElements) (n : Z) :
  0 ≤ n ≤ 2 ^ 53 →
  ∃ row,
    interior_rows T n
      !! (Z.to_nat (ceil_div2 (Z.max 1 (ceil_div2 n))) - 1)%nat = Some row ∧
    construct_map T n =
      Some (<[Z.to_nat (ceil_div2 (Z.max 1 (ceil_div2 n))) := place_spawn row]>
              ([top_row T] ++ interior_rows T n ++ [bottom_row T])).
Proof. apply construct_map_exact. Qed.

Lemma string_length_list s : String.length s = length (list_ascii_of_string s).
Proof. induction s as [|c s IH]; simpl; [done|by rewrite IH]. Qed.

Lemma place_spawn_long row :
  (4 ≤ String.length row)%nat →
  list_ascii_of_string (place_spawn row)
    = <[3%nat := "P"%char]> (list_ascii_of_string row) ∧
  String.length (place_spawn row) = String.length row.
Proof.
  unfold place_spawn. rewrite !string_length_list.
  rewrite !list_ascii_of_string_app, list_ascii_of_str_take, list_ascii_of_str_drop.
  set (l := list_ascii_of_string row). simpl list_ascii_of_string.
  intros Hlen.
  destruct (lookup_lt_is_Some_2 l 3) as [char Hchar]; [lia|].
  assert (Heq : take 3 l ++ "P"%char :: drop 4 l = <[3%nat := "P"%char]> l).
  { rewrite <- (take_drop 3 l) at 3.
    rewrite (drop_S l char 3 Hchar).
    rewrite insert_app_r_alt by (rewrite length_take; lia).
    rewrite length_take. replace (3 - 3 `min` length l)%nat with 0%nat by lia.
    done. }
  split; [done|].
  change (take 3 l ++ ["P"%char] ++ drop 4 l)
    with (take 3 l ++ "P"%char :: drop 4 l).
  by rewrite Heq, length_insert.
Qed.

(** X2. The slicing expression that places the spawn marker overwrites
    exactly column 3 of a row that has a column 3; on a shorter row it
    appends the marker instead, so the row grows. *)
Theorem place_spawn_overwrites_column_3 (row : string) :
  ((4 ≤ String.length row)%nat →
     list_ascii_of_string (place_spawn row)
       = <[3%nat := "P"%char]> (list_ascii_of_string row) ∧
     String.length (place_spawn row) = String.length row) ∧
  ((String.length row ≤ 3)%nat →
     list_ascii_of_string (place_spawn row)
       = list_ascii_of_string row ++ ["P"%char]).
Proof.
  split; [apply place_spawn_long|].
  unfold place_spawn. rewrite !string_length_list.
  rewrite !list_ascii_of_string_app, list_ascii_of_str_take, list_ascii_of_str_drop.
  intros Hlen. rewrite take_ge, drop_ge by lia. done.
Qed.

Lemma place_spawn_overwrites_column_3_witness :
  list_ascii_of_string (place_spawn "@s   s@")
    = list_ascii_of_string "@s P s@" ∧
  list_ascii_of_string (place_spawn "@s") = list_ascii_of_string "@sP".
Proof.
  split.
  - destruct (place_spawn_overwrites_column_3 "@s   s@") as [Hlong _].
    destruct Hlong as [-> _]; [simpl; lia|reflexivity].
  - destruct (place_spawn_overwrites_column_3 "@s") as [_ Hshort].
    rewrite Hshort; [reflexivity|simpl; lia].
Defined.

Lemma interior_rows_templates T n row :
  row ∈ interior_rows T n →
  row ∈ [empty_row T; one_switch_row T; two_switch_row T].
Proof.
  unfold interior_rows. rewrite !elem_of_app.
  intros [Hr|[Hr|Hr]].
  - apply elem_of_replicate in Hr as [-> _]. set_solver.
  - apply elem_of_replicate in Hr as [-> _]. set_solver.
  - case_decide; set_solver.
Qed.

Lemma construct_map_width (T : SwitchMapElements) (n : Z) (w : nat)
    (layout : list string) :
  (4 ≤ w)%nat →
  rectangular w [top_row T; empty_row T; one_switch_row T; two_switch_row T;
                 bottom_row T] →
  0 ≤ n ≤ 2 ^ 53 →
  construct_map T n = Some layout →
  rectangular w layout ∧ Z.of_nat (length layout) = Z.max 1 (ceil_div2 n) + 2.
Proof.
  intros Hw HT Hn Hmap.
  destruct (construct_map_exact T n Hn) as (row & Hrow & Heq).
  rewrite Heq in Hmap. injection Hmap as <-.
  unfold rectangular in *. rewrite !Forall_forall in *.
  assert (Hwidth : ∀ r, r ∈ [top_row T] ++ interior_rows T n ++ [bottom_row T] →
                        String.length r = w).
  { intros r. rewrite !elem_of_app, !list_elem_of_singleton.
    intros [->|[Hr%interior_rows_templates| ->]]; apply HT; set_solver. }
  split.
  - intros r Hr. apply list_elem_of_lookup in Hr as [i Hi].
    apply list_lookup_insert_Some in Hi as [(_ & <- & Hlt)|[Hne Hi]].
    + assert (String.length row = w) as Hlen.
      { apply Hwidth. rewrite !elem_of_app. right. left.
        by eapply list_elem_of_lookup_2. }
      destruct (place_spawn_long row) as [_ ->]; lia.
    + apply Hwidth. by eapply list_elem_of_lookup_2.
  - rewrite length_insert, length_cons, length_app. simpl length.
    pose proof (interior_rows_length T n (proj1 Hn)). lia.
Qed.

(** X3. When the five templates have one width of at least 4, every row
    of the layout that [construct_map] returns has that width: the layout
    is a rectangle, as the array conversion needs. *)
Theorem construct_map_rectangular (T : SwitchMapElements) (n : Z) (w : nat)
    (layout : list string) :
  (4 ≤ w)%nat →
  rectangular w [top_row T; empty_row T; one_switch_row T; two_switch_row T;
                 bottom_row T] →
  0 ≤ n ≤ 2 ^ 53 →
  construct_map T n = Some layout →
  rectangular w layout ∧ Z.of_nat (length layout) = Z.max 1 (ceil_div2 n) + 2.
Proof. apply construct_map_width. Qed.

Lemma construct_map_rectangular_witness :
  ∃ layout,
    construct_map switch_map_elements 3 = Some layout ∧
    rectangular 7 layout ∧ length layout = 4%nat.
Proof.
  destruct (construct_map switch_map_elements 3) as [layout|] eqn:Hmap.
  - exists layout. split; [reflexivity|].
    destruct (construct_map_rectangular switch_map_elements 3 7 layout)
      as [Hrect Hlen].
    + lia.
    + repeat constructor.
    + split; [lia|by vm_compute].
    + exact Hmap.
    + split; [exact Hrect|].
      change (Z.max 1 (ceil_div2 3) + 2) with 4 in Hlen. lia.
  - vm_compute in Hmap. discriminate Hmap.
Defined.

(** X4. For a negative switch count down to [-2^53] no interior row is
    produced at all: the layout is the two border rows, and the spawn marker
    is written over column 3 of the bottom border row. *)
Theorem construct_map_negative (T : SwitchMapElements) (n : Z) :
  - 2 ^ 53 ≤ n < 0 →
  construct_map T n = Some [top_row T; place_spawn (bottom_row T)].
Proof.
  intros Hn. unfold construct_map.
  rewrite (ceil_half_exact_abs n) by lia. cbn [mbind option_bind].
  assert (ceil_div2 n ≤ 0) as Hle.
  { unfold ceil_div2. Z.div_mod_to_equations. lia. }
  rewrite Z.max_l by lia. change (Z.to_nat 1) with 1%nat.
  simpl fill_rows.
  destruct (Z.eqb_spec n 0); [lia|]. destruct (Z.eqb_spec n 1); [lia|].
  destruct (Z.ltb_spec 1 n); [lia|]. done.
Qed.

Lemma construct_map_negative_witness :
  construct_map switch_map_elements (-3) = Some ["@@@D@@@"; "@@@P@@@"]%string.
Proof.
  rewrite (construct_map_negative switch_map_elements (-3)); [reflexivity|].
  split; [by vm_compute|lia].
Defined.

Lemma construct_map_fills_front_to_back_witness :
  construct_map switch_map_elements 5
    = Some ["@@@D@@@"; "@s   s@"; "@s P s@"; "@s    @"; "@@@D@@@"]%string.
Proof.
  destruct (construct_map_fills_front_to_back switch_map_elements 5)
    as (row & Hrow & ->).
  - split; [lia|by vm_compute].
  - vm_compute in Hrow. injection Hrow as <-. reflexivity.
Defined.

(** ** From the generated layout to the registry *)

Lemma elem_of_all_coords (g : grid) rc :
  rc ∈ all_coords g ↔ (rc.1 < length g)%nat ∧ (rc.2 < (shape g).2)%nat.
Proof.
  unfold all_coords. rewrite list_elem_of_bind. split.
  - intros (r & Hrc & Hr). apply list_elem_of_fmap in Hrc as (c & -> & Hc).
    apply elem_of_seq in Hr. apply elem_of_seq in Hc. simpl in *. lia.
  - intros [Hr Hc]. exists rc.1. split.
    + apply list_elem_of_fmap. exists rc.2. split; [by destruct rc|].
      apply elem_of_seq. lia.
    + apply elem_of_seq. simpl. lia.
Qed.

Lemma shape_width (g : grid) w :
  Forall (λ row, length row = w) g → g ≠ [] → (shape g).2 = w.
Proof. intros Hg Hne. destruct g as [|row g]; [done|]. simpl. by inversion Hg. Qed.

Lemma all_coords_in_range (g : grid) w rc :
  Forall (λ row, length row = w) g → rc ∈ all_coords g →
  is_Some (grid_get g rc).
Proof.
  intros Hg [Hr Hc]%elem_of_all_coords.
  rewrite (shape_width g w Hg) in Hc by (intros ->; simpl in Hr; lia).
  apply grid_get_in_range.
  destruct (lookup_lt_is_Some_2 g rc.1 Hr) as [row Hrow].
  exists row. split; [done|].
  rewrite Forall_forall in Hg. rewrite (Hg row); [done|].
  by eapply list_elem_of_lookup_2.
Qed.

Lemma init_registry_total (bm wm : grid) ags w :
  Forall (λ row, length row = w) bm → is_Some (init_registry bm wm ags).
Proof.
  intros Hrect. unfold init_registry.
  rewrite (init_registry_cells bm) by done.
  destruct (for_each_total (λ s, base_map s = bm) (all_coords bm) scan_cell
    {| base_map := bm; world_map := wm; agents := ags;
       initial_map_state := ∅; switch_locations := []; door_locations := [];
       switch_count := 0; prev_activated_switch_count := 0; timestep := 0;
       total_pulled_on := 0; total_pulled_off := 0;
       timestep_first_switch_pull := PyNaN; timestep_last_switch_pull := PyNaN;
       switches_on_at_termination := 0; total_successes := 0 |})
    as (e & -> & _); [|done|by eexists].
  intros s rc Hrc Hs.
  destruct (all_coords_in_range bm w rc Hrect Hrc) as [char Hchar].
  unfold scan_cell. rewrite Hs, Hchar. simpl. eexists. split; [done|]. done.
Qed.

Lemma holds_in_row (g : grid) syms r pre row :
  g !! r = Some (pre ++ row) →
  length (filter (λ rc, holds_one_of g syms rc = true)
            ((λ c, (r, c)) <$> seq (length pre) (length row)))
  = length (filter (λ char, char ∈ syms) row).
Proof.
  revert pre. induction row as [|x row IH]; intros pre Hr; [done|].
  simpl seq. rewrite fmap_cons, !filter_cons.
  assert (Hx : holds_one_of g syms (r, length pre) = bool_decide (x ∈ syms)).
  { unfold holds_one_of, grid_get. simpl. rewrite Hr. simpl.
    by rewrite list_lookup_middle. }
  rewrite Hx.
  assert (Hrest :
    length (filter (λ rc, holds_one_of g syms rc = true)
              ((λ c, (r, c)) <$> seq (S (length pre)) (length row)))
    = length (filter (λ char, char ∈ syms) row)).
  { specialize (IH (pre ++ [x])). rewrite length_app in IH. simpl in IH.
    rewrite Nat.add_1_r in IH. apply IH. by rewrite <- app_assoc. }
  destruct (decide (x ∈ syms)) as [Hin|Hout].
  - rewrite bool_decide_eq_true_2 by done. rewrite decide_True by done.
    simpl. by rewrite Hrest.
  - rewrite bool_decide_eq_false_2 by done. rewrite decide_False by done.
    exact Hrest.
Qed.

Lemma scanned_rows_count syms w (pre rows : grid) :
  Forall (λ row, length row = w) rows →
  length (filter (λ rc, holds_one_of (pre ++ rows) syms rc = true)
            (seq (length pre) (length rows) ≫= λ r, (λ c, (r, c)) <$> seq 0 w))
  = foldr Nat.add 0%nat ((λ row, length (filter (λ char, char ∈ syms) row)) <$> rows).
Proof.
  revert pre. induction rows as [|row rows IH]; intros pre Hrect; [done|].
  apply Forall_cons in Hrect as [Hw Hrect].
  simpl seq. cbn [mbind list_bind]. simpl.
  rewrite filter_app, length_app. f_equal.
  - rewrite <- Hw. apply (holds_in_row _ syms (length pre) [] row).
    by rewrite list_lookup_middle.
  - specialize (IH (pre ++ [row]) Hrect). rewrite length_app in IH. simpl in IH.
    rewrite Nat.add_1_r, <- app_assoc in IH. exact IH.
Qed.

Lemma scanned_layout_count (layout : list string) w :
  rectangular w layout →
  Z.of_nat (length (scanned (ascii_to_numpy layout) ["s"; "S"]%char))
  = layout_switch_symbols layout.
Proof.
  intros Hrect.
  assert (Hgrid : Forall (λ row, length row = w) (ascii_to_numpy layout)).
  { unfold ascii_to_numpy. apply Forall_fmap. unfold rectangular in Hrect.
    eapply Forall_impl; [exact Hrect|]. intros row Hrow. simpl.
    by rewrite <- string_length_list. }
  destruct layout as [|row0 layout]; [done|].
  unfold scanned, all_coords.
  rewrite (shape_width _ w Hgrid) by done.
  change (shape (ascii_to_numpy (row0 :: layout))).1
    with (length (ascii_to_numpy (row0 :: layout))).
  pose proof (scanned_rows_count ["s"; "S"]%char w [] _ Hgrid) as Hc.
  change (length (@nil (list ascii))) with 0%nat in Hc.
  rewrite app_nil_l in Hc. rewrite Hc. clear Hc.
  unfold layout_switch_symbols, ascii_to_numpy.
  generalize (row0 :: layout). clear. intros l.
  induction l as [|row l IH]; [done|].
  rewrite !fmap_cons. cbn [foldr]. rewrite Nat2Z.inj_add, IH. done.
Qed.

Lemma blank_world_shape bm : same_shape (blank_world bm) bm.
Proof.
  unfold same_shape, blank_world. rewrite <- list_fmap_compose.
  apply list_fmap_ext. intros i row _. simpl. by rewrite length_replicate.
Qed.

Lemma layout_switch_symbols_replicate k row :
  layout_switch_symbols (replicate k row) = Z.of_nat k * switch_symbols row.
Proof.
  induction k as [|k IH]; [done|].
  simpl replicate. rewrite layout_switch_symbols_cons, IH. lia.
Qed.

Lemma construct_map_switch_symbols T n layout :
  templates_ok T → 0 ≤ n ≤ 2 ^ 53 → construct_map T n = Some layout →
  layout_switch_symbols layout = n.
Proof.
  intros HT Hn Hmap.
  destruct (construct_map_exact T n Hn) as (row & Hrow & Heq).
  rewrite Heq in Hmap. injection Hmap as <-.
  set (m := ceil_div2 (Z.max 1 (ceil_div2 n))) in *.
  assert (Hm : 1 ≤ m).
  { unfold m, ceil_div2 at 1. Z.div_mod_to_equations. lia. }
  rewrite (layout_switch_symbols_insert _ _ row).
  - rewrite layout_switch_symbols_cons, !layout_switch_symbols_app.
    unfold interior_rows.
    rewrite ?layout_switch_symbols_app, !layout_switch_symbols_replicate.
    rewrite (one_one_switch T HT), (two_two_switches T HT).
    assert (Hbottom : layout_switch_symbols [bottom_row T] = 0).
    { unfold layout_switch_symbols. simpl. rewrite (bottom_no_switch T HT). lia. }
    assert (Hempty : layout_switch_symbols
                       (if decide (n = 0) then [empty_row T] else []) = 0).
    { case_decide; [|done].
      unfold layout_switch_symbols. simpl. rewrite (empty_no_switch T HT). lia. }
    rewrite (top_no_switch T HT), Hbottom, Hempty. Z.div_mod_to_equations. lia.
  - remember (Z.to_nat m - 1)%nat as j eqn:Hj.
    assert (Z.to_nat m = S j) as -> by lia.
    change ((top_row T :: interior_rows T n ++ [bottom_row T]) !! S j)
      with ((interior_rows T n ++ [bottom_row T]) !! j).
    rewrite lookup_app_l by by eapply lookup_lt_Some. exact Hrow.
  - apply switch_symbols_place_spawn. intros char.
    apply (spawn_column_free T HT). apply interior_rows_templates with n.
    by eapply list_elem_of_lookup_2.
Qed.

(** X5. Construction over well-formed templates builds what was asked
    for: with templates of one width of at least 4 that carry none, one and
    two switch symbols and keep column 3 free, [__init__] for a switch count
    [n] from 0 to [2^53] returns an environment whose [switch_count] and
    number of switch locations are [n], with all counters zero and both
    pull timesteps unset. *)
Theorem SwitchEnv_init_registers_n_switches (T : SwitchMapElements) (n : Z)
    (w : nat) :
  templates_ok T →
  (4 ≤ w)%nat →
  rectangular w [top_row T; empty_row T; one_switch_row T; two_switch_row T;
                 bottom_row T] →
  0 ≤ n ≤ 2 ^ 53 →
  ∃ e,
    SwitchEnv_init T n = Some e ∧
    reachable e ∧
    switch_count e = n ∧
    Z.of_nat (length (switch_locations e)) = n ∧
    prev_activated_switch_count e = 0 ∧
    total_pulled_on e = 0 ∧ total_pulled_off e = 0 ∧
    timestep_first_switch_pull e = PyNaN ∧ timestep_last_switch_pull e = PyNaN.
Proof.
  intros HT Hw Hrect Hn.
  destruct (construct_map_exact T n Hn) as (spawn_row & _ & Hmap).
  destruct (construct_map_width T n w _ Hw Hrect Hn Hmap) as [Hlayout _].
  pose proof (construct_map_switch_symbols T n _ HT Hn Hmap) as Hcount.
  set (layout :=
         <[Z.to_nat (ceil_div2 (Z.max 1 (ceil_div2 n))) := place_spawn spawn_row]>
           ([top_row T] ++ interior_rows T n ++ [bottom_row T])) in *.
  assert (Hgrid : Forall (λ row, length row = w) (ascii_to_numpy layout)).
  { unfold ascii_to_numpy. apply Forall_fmap.
    eapply Forall_impl; [exact Hlayout|]. intros row Hrow. simpl.
    by rewrite <- string_length_list. }
  destruct (init_registry_total (ascii_to_numpy layout)
              (blank_world (ascii_to_numpy layout)) ∅ w Hgrid) as [e He].
  exists e. unfold SwitchEnv_init. rewrite Hmap. simpl. split; [exact He|].
  assert (Hreach : reachable e).
  { eapply reach_init; [apply blank_world_shape|exact He]. }
  split; [exact Hreach|].
  pose proof (reachable_wf e Hreach) as Hwf.
  pose proof (init_registry_scan _ _ _ _ He) as Hscan.
  assert (Hlen : Z.of_nat (length (switch_locations e)) = n).
  { rewrite (wf_switches e Hwf), (si_base _ _ _ _ Hscan).
    by rewrite (scanned_layout_count layout w Hlayout). }
  split; [by rewrite (wf_count e Hwf)|]. split; [done|].
  destruct Hscan. auto.
Qed.

Lemma SwitchEnv_init_registers_n_switches_witness :
  ∃ e, SwitchEnv_init switch_map_elements 3 = Some e ∧ switch_count e = 3.
Proof.
  destruct (SwitchEnv_init_registers_n_switches switch_map_elements 3 7
              templates_ok_switch_map_elements)
    as (e & He & _ & Hcount & _).
  - lia.
  - repeat constructor.
  - split; [lia|by vm_compute].
  - exists e. split; [exact He|exact Hcount].
Defined.

(** ** More on the registry *)

Lemma all_coords_NoDup (g : grid) : NoDup (all_coords g).
Proof.
  unfold all_coords. apply NoDup_bind.
  - intros r1 r2 rc _ _ (c1 & -> & _)%list_elem_of_fmap (c2 & Heq & _)%list_elem_of_fmap.
    by simplify_eq.
  - intros r _. apply NoDup_fmap_2; [|apply NoDup_seq].
    intros c1 c2 Heq. by simplify_eq.
  - apply NoDup_seq.
Qed.

(** X6. In every reachable state the registry lists each registered cell
    once: [door_locations] is what a scan of the base layout for door
    symbols finds, no coordinate occurs twice or as both a switch and a
    door, and [initial_map_state] has exactly the registered coordinates as
    keys, each with its symbol of the base layout. *)
Theorem registry_lists_each_cell_once (e : SwitchEnv) :
  reachable e →
  door_locations e = scanned (base_map e) ["d"; "D"]%char ∧
  NoDup (switch_locations e ++ door_locations e) ∧
  (∀ rc char,
     initial_map_state e !! rc = Some char ↔
     rc ∈ switch_locations e ++ door_locations e ∧
     grid_get (base_map e) rc = Some char).
Proof.
  intros Hwf%reachable_wf. split; [apply (wf_doors e Hwf)|]. split.
  - apply NoDup_app. split; [|split].
    + rewrite (wf_switches e Hwf). apply NoDup_filter, all_coords_NoDup.
    + intros rc. by apply switch_not_door.
    + rewrite (wf_doors e Hwf). apply NoDup_filter, all_coords_NoDup.
  - intros rc char. rewrite (wf_initial e Hwf), elem_of_app.
    rewrite (wf_switches e Hwf), (wf_doors e Hwf), !elem_of_scanned.
    split.
    + intros (Hget & Hin & Hsym). split; [|done].
      assert (char ∈ ["s"; "S"]%char ∨ char ∈ ["d"; "D"]%char) as [?|?]
        by set_solver; [left|right]; eauto.
    + intros [[[Hin (c & Hc & Hsym)]|[Hin (c & Hc & Hsym)]] Hget];
        rewrite Hget in Hc; simplify_eq; (split; [done|split; [done|set_solver]]).
Qed.

Lemma registry_lists_each_cell_once_witness :
  NoDup (switch_locations demo_state ++ door_locations demo_state) ∧
  initial_map_state demo_state !! (1, 3)%nat = Some "S"%char.
Proof.
  destruct (registry_lists_each_cell_once demo_state demo_state_reachable)
    as (_ & Hnd & Hinit).
  split; [exact Hnd|]. apply Hinit. split; [|reflexivity].
  apply list_elem_of_further, list_elem_of_here.
Defined.

(** ** More on the coordination pass *)




Lemma add_reward_zero a : add_reward 0 a = a.
Proof.
  destruct a as [[num den]]. unfold add_reward, Qplus. simpl.
  rewrite Z.mul_1_r, Z.add_0_r, Pos.mul_1_r. done.
Qed.

Lemma custom_map_update_agents e e' :
  custom_map_update e = Some e' → agents e' = agents e.
Proof.
  intros (wm & _ & _ & ->)%custom_map_update_Some. simpl.
  unfold GIVE_EXTERNAL_SWITCH_REWARD. simpl Z.b2z. rewrite Z.mul_0_r.
  rewrite <- (map_fmap_id (agents e)) at 2.
  apply map_fmap_ext. intros name a _. apply add_reward_zero.
Qed.

Lemma update_map_again g updates :
  (∀ u, u ∈ updates → grid_get g (u.1.1, u.1.2) = Some u.2) →
  update_map g updates = Some g.
Proof.
  unfold update_map. induction updates as [|u updates IH]; intros Hheld; [done|].
  simpl. rewrite grid_set_same by (apply Hheld; by left).
  apply IH. intros u' Hin. apply Hheld. by right.
Qed.

(** X8. The external switch reward is switched off, so the coordination
    pass leaves every agent's [reward_this_turn] as it is; and the pass is
    idempotent: run again in a reachable state, with no engine edit in
    between, it returns the state unchanged. *)
Theorem custom_map_update_idempotent (e e' : SwitchEnv) :
  reachable e → custom_map_update e = Some e' →
  agents e' = agents e ∧ custom_map_update e' = Some e'.
Proof.
  intros Hwf%reachable_wf Hup. split; [by eapply custom_map_update_agents|].
  pose proof (custom_map_update_wf e e' Hwf Hup) as Hwf'.
  pose proof (custom_map_update_doors e e' Hwf Hup) as Hdoors.
  pose proof (custom_map_update_count e e' Hwf Hup) as Hcount.
  assert (Hprev : prev_activated_switch_count e'
                  = switches_on (world_map e') (switch_locations e')).
  { rewrite Hcount. by apply custom_map_update_Some in Hup as (wm & _ & _ & ->). }
  destruct (custom_map_update_total e' Hwf') as [e'' Hup'].
  rewrite Hup'. f_equal.
  pose proof (custom_map_update_agents e' e'' Hup') as Hags.
  apply custom_map_update_Some in Hup' as (wm' & _ & Hwm' & ->).
  rewrite update_map_again in Hwm'.
  - injection Hwm' as <-. simpl in Hags. rewrite Hags.
    unfold activation_delta. rewrite <- Hprev, Z.sub_diag. simpl.
    by destruct e'.
  - intros u [Hu ->]%elem_of_door_updates. by apply Hdoors.
Qed.

Lemma custom_map_update_idempotent_witness :
  ∃ e', custom_map_update demo_state = Some e' ∧ custom_map_update e' = Some e'.
Proof.
  destruct (custom_map_update demo_state) as [e'|] eqn:He'.
  - exists e'. split; [reflexivity|].
    apply (custom_map_update_idempotent demo_state e' demo_state_reachable He').
  - vm_compute in He'. discriminate He'.
Defined.

Lemma update_map_in_range g updates g' u :
  update_map g updates = Some g' → u ∈ updates →
  is_Some (grid_get g (u.1.1, u.1.2)).
Proof.
  unfold update_map. revert g. induction updates as [|u0 updates IH];
    intros g Hrun Hin; [by apply elem_of_nil in Hin|].
  simpl in Hrun.
  destruct (grid_set g (u0.1.1, u0.1.2) u0.2) as [g1|] eqn:Hset; [|discriminate].
  apply elem_of_cons in Hin as [->|Hin].
  - apply grid_set_Some in Hset as (row & Hrow & Hlt & _).
    apply grid_get_in_range. eauto.
  - apply (same_shape_get g1); [by eapply grid_set_shape|]. by eapply IH.
Qed.

(** X9. In any state whose recorded first pull [np.isnan] accepts (it is
    unset, or an [int] of the 64-bit range, where [isnan] is [np.isnan]),
    the coordination pass returns exactly when every registered switch and
    door coordinate lies inside the grid; with a registered coordinate
    outside the grid it raises. *)
Theorem custom_map_update_returns_iff_in_range (e : SwitchEnv) :
  is_Some (np_isnan (timestep_first_switch_pull e)) →
  np_isnan (timestep_first_switch_pull e)
    = Some (isnan (timestep_first_switch_pull e)) ∧
  (is_Some (custom_map_update e) ↔
   ∀ rc, rc ∈ switch_locations e ++ door_locations e →
     is_Some (grid_get (world_map e) rc)).
Proof.
  intros Hnan. split.
  { destruct (timestep_first_switch_pull e) as [|a]; [done|].
    simpl in *. by case_decide; [|destruct Hnan]. }
  split.
  - intros [e' (wm & Hcount & Hwm & _)%custom_map_update_Some] rc
      [Hrc|Hrc]%elem_of_app.
    + unfold count_activated in Hcount.
      apply count_activated_acc in Hcount as [_ Hin]. by apply Hin.
    + destruct rc as [r c].
      apply (update_map_in_range _ _ _
               (r, c, door_symbol (bool_decide
                  (switches_on (world_map e) (switch_locations e) = switch_count e)))
               Hwm).
      by apply elem_of_door_updates.
  - intros Hin. unfold custom_map_update.
    rewrite count_activated_total
      by (intros rc Hrc; apply Hin, elem_of_app; auto).
    simpl.
    destruct (update_map_total (world_map e)
      (door_updates (door_locations e)
         (door_symbol (bool_decide
            (switches_on (world_map e) (switch_locations e) = switch_count e)))))
      as [wm ->]; [|by eexists].
    intros u [Hu _]%elem_of_door_updates. apply Hin, elem_of_app. auto.
Qed.

Lemma custom_map_update_returns_iff_in_range_witness :
  ∃ e, busy_state = Some e ∧
       timestep_first_switch_pull e = PyInt 0 ∧
       is_Some (custom_map_update e).
Proof.
  destruct busy_state as [e|] eqn:He.
  - exists e. split; [reflexivity|].
    vm_compute in He. injection He as <-.
    split; [reflexivity|].
    eapply (custom_map_update_returns_iff_in_range).
    + by eexists.
    + intros rc Hrc.
      repeat (apply elem_of_cons in Hrc as [->|Hrc]; [by eexists|]).
      by apply elem_of_nil in Hrc.
  - vm_compute in He. discriminate He.
Defined.

(** The demonstration environment with a switch registered outside its
    grid. *)
Example custom_map_update_raises_out_of_range :
  custom_map_update
    {| base_map := demo_base_map; world_map := demo_world; agents := ∅;
       initial_map_state := ∅;
       switch_locations := [(1, 1); (9, 9)]%nat; door_locations := [];
       switch_count := 2; prev_activated_switch_count := 0; timestep := 0;
       total_pulled_on := 0; total_pulled_off := 0;
       timestep_first_switch_pull := PyNaN; timestep_last_switch_pull := PyNaN;
       switches_on_at_termination := 0; total_successes := 0 |} = None.
Proof. reflexivity. Qed.

(** ** More invariants of the episode metrics *)

Lemma reachable_prev_bounds e :
  reachable e → 0 ≤ prev_activated_switch_count e ≤ switch_count e.
Proof.
  intros Hr. pose proof (reachable_wf e Hr) as Hwf.
  pose proof (wf_count e Hwf) as Hlen.
  induction Hr as [bm wm ags e Hs Hinit|e e' Hr IH Hreset|e e' Hr IH Hstep].
  - apply init_registry_scan in Hinit. rewrite (si_prev _ _ _ _ Hinit). lia.
  - apply custom_reset_Some in Hreset as (wm & _ & ->). simpl in *. lia.
  - assert (Hpass : ∀ e0 e1, custom_map_update e0 = Some e1 →
              0 ≤ prev_activated_switch_count e1
                ≤ Z.of_nat (length (switch_locations e1))).
    { intros e0 e1 (wm & _ & _ & ->)%custom_map_update_Some. simpl.
      apply switches_on_bounds. }
    specialize (IH (reachable_wf e Hr) (wf_count e (reachable_wf e Hr))).
    destruct Hstep as [e0 updates wm ags Hup|e0 e1 Hup|E actions e0 e1 r Hstep].
    + done.
    + rewrite Hlen. by eapply Hpass.
    + rewrite Hlen.
      apply step_Some in Hstep as (base & fa & rw & Hbase & _ & _ & -> & _).
      apply MapEnv_step_Some in Hbase as (wm & _ & Hup & _).
      simpl. by eapply Hpass.
Qed.

Lemma busy_state_reachable e : busy_state = Some e → reachable e.
Proof.
  unfold busy_state. intros H.
  destruct (step idle_engine two_agents demo_state) as [[e1 r1]|] eqn:H1;
    [|discriminate].
  cbn [mbind option_bind fst] in H.
  destruct (step switch_off_engine two_agents e1) as [[e2 r2]|] eqn:H2;
    [|discriminate].
  cbn [mbind option_bind fst] in H. injection H as <-.
  eapply reach_episode; [|eapply ep_step; exact H2].
  eapply reach_episode; [exact demo_state_reachable|eapply ep_step; exact H1].
Qed.

(** X10. In every reachable state no more switches have been pulled off
    than on, and the excess of pulls on is at most the number of switches:
    [total_pulled_off <= total_pulled_on <= total_pulled_off + switch_count]. *)
Theorem pulled_off_never_exceeds_pulled_on (e : SwitchEnv) :
  reachable e →
  0 ≤ total_pulled_off e ∧
  total_pulled_off e ≤ total_pulled_on e ∧
  total_pulled_on e ≤ total_pulled_off e + switch_count e.
Proof.
  intros Hr. pose proof (reachable_wf e Hr) as Hwf.
  pose proof (reachable_prev_bounds e Hr). pose proof (wf_balance e Hwf).
  pose proof (wf_off_nonneg e Hwf). lia.
Qed.

Lemma pulled_off_never_exceeds_pulled_on_witness :
  ∃ e, busy_state = Some e ∧
       total_pulled_off e = 1 ∧ total_pulled_on e = 2 ∧ switch_count e = 2 ∧
       total_pulled_off e ≤ total_pulled_on e ∧
       total_pulled_on e ≤ total_pulled_off e + switch_count e.
Proof.
  destruct busy_state as [e|] eqn:He.
  - exists e. split; [reflexivity|].
    destruct (pulled_off_never_exceeds_pulled_on e (busy_state_reachable e He))
      as (_ & Hle & Hsum).
    vm_compute in He. injection He as <-.
    split; [reflexivity|]. split; [reflexivity|]. split; [reflexivity|].
    split; [exact Hle|exact Hsum].
  - vm_compute in He. discriminate He.
Defined.

Lemma custom_map_update_timeline e e' :
  timeline_ok e → custom_map_update e = Some e' → timeline_ok e'.
Proof.
  intros [Ht Hlast Hfirst] (wm & _ & _ & ->)%custom_map_update_Some.
  split; simpl; [done| |].
  - intros b. destruct (negb (activation_delta e =? 0)); [|by apply Hlast].
    intros [= <-]. lia.
  - intros a. destruct (negb (activation_delta e =? 0)); simpl; [|by apply Hfirst].
    destruct (timestep_first_switch_pull e) as [|a0] eqn:Hf; simpl.
    + intros [= <-]. exists (timestep e). split; [done|lia].
    + intros [= <-]. destruct (Hfirst a0 eq_refl) as (b & Hb & Hab).
      apply Hlast in Hb. exists (timestep e). split; [done|lia].
Qed.

Lemma init_registry_timestep bm wm ags e :
  init_registry bm wm ags = Some e → timestep e = 0.
Proof.
  unfold init_registry. rewrite (init_registry_cells bm) by done.
  apply (for_each_inv (λ s, timestep s = 0)); [|reflexivity].
  intros s rc s' _ Hs Hcell. unfold scan_cell in Hcell.
  destruct (grid_get (base_map s) rc); [|discriminate].
  simpl in Hcell. injection Hcell as <-. exact Hs.
Qed.

Lemma reachable_timeline e : reachable e → timeline_ok e.
Proof.
  induction 1 as [bm wm ags e Hs Hinit|e e' _ IH Hreset|e e' _ IH Hstep].
  - pose proof (init_registry_timestep _ _ _ _ Hinit) as Ht.
    pose proof (init_registry_scan _ _ _ _ Hinit) as Hscan.
    split; [lia| |].
    + intros b. by rewrite (si_last _ _ _ _ Hscan).
    + intros a. by rewrite (si_first _ _ _ _ Hscan).
  - apply custom_reset_Some in Hreset as (wm & _ & ->). by split.
  - destruct Hstep as [e0 updates wm ags Hup|e0 e1 Hup|E actions e0 e1 r Hstep].
    + destruct IH. by split.
    + by eapply custom_map_update_timeline.
    + apply step_Some in Hstep as (base & fa & rw & Hbase & _ & _ & -> & _).
      apply MapEnv_step_Some in Hbase as (wm & _ & Hup & _).
      assert (Hmid : timeline_ok base.1).
      { eapply custom_map_update_timeline; [|exact Hup]. destruct IH. by split. }
      destruct Hmid as [Ht Hlast Hfirst]. split; simpl; [lia| |done].
      intros b Hb. apply Hlast in Hb. lia.
Qed.

(** X11. In every reachable state the timestep is not negative, a
    recorded last pull is not after the current timestep, and a recorded
    first pull comes with a recorded last pull that is not before it. *)
Theorem pull_timesteps_are_ordered (e : SwitchEnv) :
  reachable e →
  0 ≤ timestep e ∧
  (∀ b, timestep_last_switch_pull e = PyInt b → 0 ≤ b ≤ timestep e) ∧
  (∀ a, timestep_first_switch_pull e = PyInt a →
     ∃ b, timestep_last_switch_pull e = PyInt b ∧ 0 ≤ a ≤ b ≤ timestep e).
Proof.
  intros [Ht Hlast Hfirst]%reachable_timeline. split; [done|]. split; [done|].
  intros a Ha. destruct (Hfirst a Ha) as (b & Hb & Hab).
  exists b. split; [done|]. pose proof (Hlast b Hb). lia.
Qed.

Lemma pull_timesteps_are_ordered_witness :
  ∃ e, busy_state = Some e ∧
       timestep e = 2 ∧
       timestep_first_switch_pull e = PyInt 0 ∧
       timestep_last_switch_pull e = PyInt 1 ∧
       ∃ b, timestep_last_switch_pull e = PyInt b ∧ 0 ≤ 0 ≤ b ≤ timestep e.
Proof.
  destruct busy_state as [e|] eqn:He.
  - exists e. split; [reflexivity|].
    destruct (pull_timesteps_are_ordered e (busy_state_reachable e He))
      as (_ & _ & Hfirst).
    vm_compute in He. injection He as <-.
    split; [reflexivity|]. split; [reflexivity|]. split; [reflexivity|].
    exact (Hfirst 0 eq_refl).
  - vm_compute in He. discriminate He.
Defined.

(** ** More on reset *)

(** X12. In any state, a reset that returns has written the recorded
    symbol into every cell that [initial_map_state] has a key for, and has
    left every other cell of the grid, and the shape of the grid, as they
    were. *)
Theorem custom_reset_writes_recorded_cells_only (e e' : SwitchEnv) :
  custom_reset e = Some e' →
  same_shape (world_map e') (world_map e) ∧
  (∀ rc char, initial_map_state e !! rc = Some char →
     grid_get (world_map e') rc = Some char) ∧
  (∀ rc, initial_map_state e !! rc = None →
     grid_get (world_map e') rc = grid_get (world_map e) rc).
Proof.
  intros (wm & Hwm & ->)%custom_reset_Some. simpl. split; [|split].
  - by eapply reset_world_shape.
  - intros rc char Hin. eapply reset_world_cells; [|exact Hwm|].
    + apply NoDup_fst_map_to_list.
    + by apply elem_of_map_to_list.
  - intros rc Hout. eapply reset_world_frame; [exact Hwm|].
    intros ((rc' & char) & -> & Hin)%list_elem_of_fmap.
    apply elem_of_map_to_list in Hin. simpl in Hout. congruence.
Qed.

Lemma custom_reset_writes_recorded_cells_only_witness :
  ∃ e', custom_reset demo_state = Some e' ∧
        grid_get (world_map e') (1, 1)%nat = Some "s"%char ∧
        grid_get (world_map e') (1, 2)%nat = Some " "%char.
Proof.
  destruct (custom_reset demo_state) as [e'|] eqn:He'.
  - exists e'. split; [reflexivity|].
    destruct (custom_reset_writes_recorded_cells_only demo_state e' He')
      as (_ & Hin & Hout).
    split; [by apply Hin|]. by rewrite Hout.
  - vm_compute in He'. discriminate He'.
Defined.

Lemma custom_reset_restores_registered e e' rc :
  wf e → custom_reset e = Some e' →
  rc ∈ switch_locations e ++ door_locations e →
  grid_get (world_map e') rc = grid_get (base_map e) rc.
Proof.
  intros Hwf (wm & Hwm & ->)%custom_reset_Some Hrc. simpl.
  assert (Hsym : ∃ char, grid_get (base_map e) rc = Some char ∧
                         rc ∈ all_coords (base_map e) ∧
                         char ∈ ["s"; "S"; "d"; "D"]%char).
  { apply elem_of_app in Hrc as [Hrc|Hrc].
    - rewrite (wf_switches e Hwf), elem_of_scanned in Hrc.
      destruct Hrc as (? & char & ? & Hc). exists char. set_solver.
    - rewrite (wf_doors e Hwf), elem_of_scanned in Hrc.
      destruct Hrc as (? & char & ? & Hc). exists char. set_solver. }
  destruct Hsym as (char & Hget & Hin & Hchar). rewrite Hget.
  eapply reset_world_cells; [apply NoDup_fst_map_to_list|exact Hwm|].
  apply elem_of_map_to_list. by apply (wf_initial e Hwf).
Qed.

Lemma switches_on_scanned (g : grid) :
  switches_on g (scanned g ["s"; "S"]%char)
  = Z.of_nat (length (scanned g ["S"]%char)).
Proof.
  unfold switches_on, scanned. f_equal. f_equal.
  rewrite list_filter_filter. apply list_filter_iff. intros rc.
  rewrite !holds_one_of_Some. split.
  - intros [Hget _]. exists "S"%char. split; [done|set_solver].
  - intros (char & Hget & ->%list_elem_of_singleton).
    split; [done|]. exists "S"%char. split; [done|set_solver].
Qed.

(** X13. The first coordination pass after a reset, in a reachable state,
    counts the switches that the base layout has on: with [k] the number of
    cells of the base layout that hold [S], it leaves the cached count, the
    termination snapshot and [total_pulled_on] at [k] and [total_pulled_off]
    at 0.  When the layout has no activated switch both pull timesteps stay
    unset; otherwise both are set to timestep 0. *)
Theorem first_pass_after_reset (e e1 e2 : SwitchEnv) :
  reachable e → custom_reset e = Some e1 → custom_map_update e1 = Some e2 →
  let k := Z.of_nat (length (scanned (base_map e) ["S"]%char)) in
  prev_activated_switch_count e2 = k ∧
  switches_on_at_termination e2 = k ∧
  total_pulled_on e2 = k ∧
  total_pulled_off e2 = 0 ∧
  (k = 0 →
     timestep_first_switch_pull e2 = PyNaN ∧ timestep_last_switch_pull e2 = PyNaN) ∧
  (k ≠ 0 →
     timestep_first_switch_pull e2 = PyInt 0 ∧ timestep_last_switch_pull e2 = PyInt 0).
Proof.
  intros Hwf%reachable_wf Hreset Hup k.
  assert (Hon : switches_on (world_map e1) (switch_locations e1) = k).
  { unfold k. rewrite <- switches_on_scanned, <- (wf_switches e Hwf).
    assert (switch_locations e1 = switch_locations e) as ->
      by by apply custom_reset_Some in Hreset as (wm & _ & ->).
    apply switches_on_ext. intros rc Hrc.
    apply (custom_reset_restores_registered e e1 rc Hwf Hreset).
    apply elem_of_app. by left. }
  assert (Hk : 0 ≤ k) by (unfold k; lia).
  apply custom_map_update_Some in Hup as (wm2 & _ & _ & ->).
  apply custom_reset_Some in Hreset as (wm1 & _ & ->).
  unfold activation_delta. simpl in *. rewrite Hon, Z.sub_0_r.
  destruct (Z.eqb_spec k 0) as [Hz|Hnz]; simpl; repeat split; try done; lia.
Qed.

Lemma first_pass_after_reset_witness :
  ∃ e1 e2,
    custom_reset demo_state = Some e1 ∧ custom_map_update e1 = Some e2 ∧
    total_pulled_on e2 = 1 ∧ timestep_first_switch_pull e2 = PyInt 0.
Proof.
  destruct (custom_reset demo_state) as [e1|] eqn:He1;
    [|vm_compute in He1; discriminate He1].
  destruct (custom_map_update e1) as [e2|] eqn:He2.
  - exists e1, e2. split; [reflexivity|]. split; [exact He2|].
    destruct (first_pass_after_reset demo_state e1 e2 demo_state_reachable He1 He2)
      as (_ & _ & Hon & _ & _ & Hset).
    split; [exact Hon|]. apply Hset. by vm_compute.
  - vm_compute in He1. injection He1 as <-. vm_compute in He2. discriminate He2.
Defined.

(** ** More on the step wrapper *)

Lemma exceeds_threshold_integer z :
  exceeds_threshold (inject_Z z) = true ↔ 1 ≤ z.
Proof.
  unfold exceeds_threshold, Qle_bool, success_threshold, inject_Z. simpl.
  rewrite negb_true_iff, Z.leb_gt. lia.
Qed.

(** X14. A step that returns has advanced the timestep by exactly one
    and has added one to [total_successes] exactly when the reward of the
    first agent of the actions mapping exceeds the double written [0.1],
    which is [3602879701896397 / 2^55]; whatever the other agents were
    rewarded.  A reward of at most one tenth is no success, a reward of
    [0.1000000000000001] or more is one, and a whole-number reward is one
    from 1 on. *)
Theorem step_advances_counters (E : Engine) (actions : list (string * Z))
    (e e' : SwitchEnv) (r : StepResult) :
  step E actions e = Some (e', r) →
  ∃ first_agent reward,
    head (actions.*1) = Some first_agent ∧
    rewards r !! first_agent = Some reward ∧
    timestep e' = timestep e + 1 ∧
    ((3602879701896397 # 36028797018963968 < reward)%Q →
       total_successes e' = total_successes e + 1) ∧
    ((reward <= 3602879701896397 # 36028797018963968)%Q →
       total_successes e' = total_successes e) ∧
    ((reward <= 1 # 10)%Q → total_successes e' = total_successes e) ∧
    ((1000000000000001 # 10000000000000000 <= reward)%Q →
       total_successes e' = total_successes e + 1) ∧
    (∀ z, (reward == inject_Z z)%Q →
       total_successes e' = total_successes e + (if decide (1 ≤ z) then 1 else 0)).
Proof.
  intros (base & fa & rw & Hbase & Hfa & Hrw & -> & ->)%step_Some.
  apply MapEnv_step_Some in Hbase as (wm & _ & Hup & _).
  apply custom_map_update_Some in Hup as (wm' & _ & _ & Hb).
  exists fa, rw. simpl. rewrite Hb. simpl.
  split; [done|]. split; [done|]. split; [done|].
  assert (Hgt : (3602879701896397 # 36028797018963968 < rw)%Q →
                exceeds_threshold rw = true).
  { intros Hlt. unfold exceeds_threshold, success_threshold.
    apply negb_true_iff, not_true_is_false. intros Hle%Qle_bool_iff.
    by apply Qlt_not_le in Hlt. }
  assert (Hle : (rw <= 3602879701896397 # 36028797018963968)%Q →
                exceeds_threshold rw = false).
  { intros Hle%Qle_bool_iff. unfold exceeds_threshold, success_threshold.
    by rewrite Hle. }
  split; [by intros ->%Hgt|]. split; [by intros ->%Hle|].
  split; [|split].
  - intros Hten. rewrite Hle; [done|].
    eapply Qle_trans; [exact Hten|]. by vm_compute.
  - intros Hover. rewrite Hgt; [done|].
    eapply Qlt_le_trans; [|exact Hover]. by vm_compute.
  - intros z Hz. case_decide as Hone.
    + rewrite Hgt; [done|]. rewrite Hz.
      unfold Qlt, inject_Z. simpl. lia.
    + rewrite Hle; [lia|]. rewrite Hz.
      unfold Qle, inject_Z. simpl. lia.
Qed.

Lemma step_advances_counters_witness :
  ∃ e' r, step rewarding_engine two_agents demo_state = Some (e', r) ∧
          rewards r !! "agent-0"%string = Some 1%Q ∧
          timestep e' = 1 ∧ total_successes e' = 1.
Proof.
  destruct (step rewarding_engine two_agents demo_state) as [[e' r]|] eqn:Hstep.
  - exists e', r. split; [reflexivity|].
    destruct (step_advances_counters rewarding_engine two_agents demo_state e' r
                Hstep)
      as (fa & rw & Hfa & Hrw & Ht & Hgt & _).
    injection Hfa as <-.
    assert (Hone : rewards r !! "agent-0"%string = Some 1%Q).
    { vm_compute in Hstep. injection Hstep as <- <-. reflexivity. }
    rewrite Hone in Hrw. injection Hrw as <-.
    split; [exact Hone|]. split; [exact Ht|].
    rewrite Hgt; [reflexivity|]. by vm_compute.
  - vm_compute in Hstep. discriminate Hstep.
Defined.



(** ** Counting switches in a window *)

Lemma py_dict_lookup {V} (f : ascii → V) (l : list ascii) (d : gmap ascii V) k :
  fold_left (λ d kv, <[kv.1 := kv.2]> d) ((λ u, (u, f u)) <$> l) d !! k
  = if decide (k ∈ l) then Some (f k) else d !! k.
Proof.
  revert d. induction l as [|u l IH]; intros d.
  - by rewrite decide_False by apply not_elem_of_nil.
  - rewrite fmap_cons. simpl fold_left. rewrite IH.
    destruct (decide (k ∈ l)) as [Hin|Hout].
    + rewrite decide_True; [done|by right].
    + destruct (decide (k = u)) as [->|Hne].
      * rewrite decide_True by by left. by rewrite lookup_insert_eq.
      * rewrite decide_False by (by intros [?|?]%elem_of_cons).
        by rewrite lookup_insert_ne.
Qed.

Lemma zip_with_values {V} (f : ascii → V) (l : list ascii) :
  zip l (f <$> l) = (λ u, (u, f u)) <$> l.
Proof. induction l as [|u l IH]; [done|]. cbn. by f_equal. Qed.

Lemma filter_absent (l : list ascii) (x : ascii) :
  x ∉ l → filter (λ char, char = x) l = [].
Proof.
  induction l as [|y l IH]; intros Hout; [done|].
  rewrite filter_cons, decide_False by (intros ->; apply Hout; by left).
  apply IH. intros Hin. apply Hout. by right.
Qed.

Lemma on_cells_by_row (window : grid) :
  length (filter (λ char, char = "S"%char) (concat window))
  = foldr Nat.add 0%nat
      ((λ row, length (filter (λ char, char ∈ ["S"]%char) row)) <$> window).
Proof.
  induction window as [|row window IH]; [done|].
  rewrite fmap_cons. cbn [concat foldr]. rewrite filter_app, length_app, IH.
  f_equal. f_equal. apply list_filter_iff. intros char.
  by rewrite list_elem_of_singleton.
Qed.

(** X16. [count_switches] is the number of cells of the window that hold
    the on symbol [S], and 0 when the window holds none; on a rectangular
    grid that is the number of coordinates at which a scan finds [S]. *)
Theorem count_switches_counts_on_cells (window : grid) :
  count_switches window
    = Z.of_nat (length (filter (λ char, char = "S"%char) (concat window))) ∧
  ("S"%char ∉ concat window → count_switches window = 0) ∧
  (∀ w, Forall (λ row, length row = w) window →
     count_switches window = Z.of_nat (length (scanned window ["S"]%char))).
Proof.
  assert (Hcount : count_switches window
    = Z.of_nat (length (filter (λ char, char = "S"%char) (concat window)))).
  { unfold count_switches, np_unique_counts, py_dict. cbn [fst snd].
    rewrite zip_with_values, py_dict_lookup, lookup_empty.
    case_decide as Hin; [done|]. simpl.
    rewrite elem_of_remove_dups, merge_sort_Permutation in Hin.
    by rewrite filter_absent. }
  split; [exact Hcount|]. split.
  - intros Hout. by rewrite Hcount, filter_absent.
  - intros w Hrect. rewrite Hcount, on_cells_by_row. f_equal.
    destruct window as [|row0 window]; [done|].
    unfold scanned, all_coords.
    rewrite (shape_width _ w Hrect) by done.
    pose proof (scanned_rows_count ["S"]%char w [] _ Hrect) as Hc.
    change (length (@nil (list ascii))) with 0%nat in Hc.
    rewrite app_nil_l in Hc. symmetry. exact Hc.
Qed.

Lemma count_switches_counts_on_cells_witness :
  count_switches demo_world = Z.of_nat (length (scanned demo_world ["S"]%char)).
Proof.
  destruct (count_switches_counts_on_cells demo_world) as (_ & _ & Hrect).
  apply (Hrect 5%nat). repeat constructor.
Defined.

(** ** The episode-end callback *)

Lemma copy_keys_Some (last metrics : gmap string pyval) (keys : list string) :
  (∀ key, key ∈ keys → is_Some (last !! key)) →
  ∃ metrics',
    for_each keys
      (λ metrics key, value ← last !! key; Some (<[key := value]> metrics))
      metrics = Some metrics' ∧
    ∀ key, metrics' !! key
           = if decide (key ∈ keys) then last !! key else metrics !! key.
Proof.
  revert metrics. induction keys as [|k keys IH]; intros metrics Hall.
  - exists metrics. split; [done|]. intros key.
    by rewrite decide_False by apply not_elem_of_nil.
  - destruct (Hall k) as [v Hv]; [by left|].
    destruct (IH (<[k := v]> metrics)) as (metrics' & Hrun & Hlook).
    { intros key Hin. apply Hall. by right. }
    exists metrics'. simpl. rewrite Hv. simpl. split; [exact Hrun|].
    intros key. rewrite Hlook.
    destruct (decide (key ∈ keys)) as [Hin|Hout].
    + rewrite decide_True; [done|by right].
    + destruct (decide (key = k)) as [->|Hne].
      * rewrite decide_True by by left. by rewrite lookup_insert_eq.
      * rewrite decide_False by (by intros [?|?]%elem_of_cons).
        by rewrite lookup_insert_ne.
Qed.

Lemma copy_keys_None (last metrics : gmap string pyval) (keys : list string) key :
  key ∈ keys → last !! key = None →
  for_each keys
    (λ metrics key, value ← last !! key; Some (<[key := value]> metrics))
    metrics = None.
Proof.
  revert metrics. induction keys as [|k keys IH]; intros metrics Hin Hnone.
  - by apply elem_of_nil in Hin.
  - simpl. destruct (last !! k) as [v|] eqn:Hk; [|done]. simpl.
    apply IH; [|done]. apply elem_of_cons in Hin as [->|Hin]; [congruence|done].
Qed.

Lemma on_episode_end_Some (info : gmap string Episode) episode last :
  info !! "episode"%string = Some episode →
  last_info episode !! "agent-0"%string = Some last →
  (∀ key, key ∈ extra_info_keys → is_Some (last !! key)) →
  ∃ episode',
    on_episode_end info = Some episode' ∧
    last_info episode' = last_info episode ∧
    (∀ key, key ∈ extra_info_keys →
       custom_metrics episode' !! key = last !! key) ∧
    (∀ key, key ∉ extra_info_keys →
       custom_metrics episode' !! key = custom_metrics episode !! key).
Proof.
  unfold on_episode_end. intros -> Hlast Hall. cbn [mbind option_bind].
  rewrite Hlast. cbn [mbind option_bind].
  destruct (copy_keys_Some last (custom_metrics episode) extra_info_keys Hall)
    as (metrics' & -> & Hlook).
  cbn [mbind option_bind]. eexists. split; [done|]. simpl. split; [done|]. split.
  - intros key Hin. by rewrite Hlook, decide_True.
  - intros key Hout. by rewrite Hlook, decide_False.
Qed.

(** X17. When the info holds an episode whose last info for ["agent-0"]
    has the six fields, [on_episode_end] returns, and in the custom metrics
    of the episode each of the six keys then holds the value of the last
    info, every other key holds what it held, and the last infos are as
    they were.  It raises when the info has no episode, when the episode has
    no last info for ["agent-0"], and when that last info lacks one of the
    six fields. *)
Theorem on_episode_end_copies_six_fields (info : gmap string Episode) :
  (∀ episode last,
     info !! "episode"%string = Some episode →
     last_info episode !! "agent-0"%string = Some last →
     (∀ key, key ∈ extra_info_keys → is_Some (last !! key)) →
     ∃ episode',
       on_episode_end info = Some episode' ∧
       last_info episode' = last_info episode ∧
       (∀ key, key ∈ extra_info_keys →
          custom_metrics episode' !! key = last !! key) ∧
       (∀ key, key ∉ extra_info_keys →
          custom_metrics episode' !! key = custom_metrics episode !! key)) ∧
  (info !! "episode"%string = None → on_episode_end info = None) ∧
  (∀ episode,
     info !! "episode"%string = Some episode →
     last_info episode !! "agent-0"%string = None →
     on_episode_end info = None) ∧
  (∀ episode last key,
     info !! "episode"%string = Some episode →
     last_info episode !! "agent-0"%string = Some last →
     key ∈ extra_info_keys → last !! key = None →
     on_episode_end info = None).
Proof.
  split; [|split; [|split]].
  - apply on_episode_end_Some.
  - unfold on_episode_end. by intros ->.
  - unfold on_episode_end. intros episode -> Hlast. cbn [mbind option_bind].
    by rewrite Hlast.
  - unfold on_episode_end. intros episode last key -> Hlast Hin Hnone.
    cbn [mbind option_bind]. rewrite Hlast. cbn [mbind option_bind].
    by rewrite (copy_keys_None last _ _ key Hin Hnone).
Qed.

Lemma on_episode_end_copies_six_fields_witness :
  ∃ episode',
    on_episode_end
      {[ "episode"%string :=
           {| last_info := {[ "agent-0"%string := create_extra_info_dict demo_state ]};
              custom_metrics := {[ "episode_reward"%string := PyInt 3 ]} |} ]}
      = Some episode' ∧
    custom_metrics episode' !! "total_pulled_on"%string = Some (PyInt 0) ∧
    custom_metrics episode' !! "episode_reward"%string = Some (PyInt 3).
Proof.
  destruct (on_episode_end_copies_six_fields
    {[ "episode"%string :=
         {| last_info := {[ "agent-0"%string := create_extra_info_dict demo_state ]};
            custom_metrics := {[ "episode_reward"%string := PyInt 3 ]} |} ]})
    as (Hcopy & _).
  destruct (Hcopy
    {| last_info := {[ "agent-0"%string := create_extra_info_dict demo_state ]};
       custom_metrics := {[ "episode_reward"%string := PyInt 3 ]} |}
    (create_extra_info_dict demo_state))
    as (episode' & Hend & _ & Hkeys & Hother).
  - reflexivity.
  - reflexivity.
  - intros key. apply extra_info_has_keys.
  - exists episode'. split; [exact Hend|]. split.
    + rewrite Hkeys; [reflexivity|].
      apply list_elem_of_further, list_elem_of_here.
    + rewrite Hother; [reflexivity|]. unfold extra_info_keys.
      intros Hin.
      repeat (apply elem_of_cons in Hin as [Hin|Hin]; [discriminate Hin|]).
      by apply elem_of_nil in Hin.
Defined.

(** X18. The callback after a step: when the first agent of the actions
    mapping is ["agent-0"], an episode whose last infos are the info of the
    step is accepted by [on_episode_end], and the custom metrics then hold
    the six fields as [create_extra_info_dict] reads them off the
    environment.  When the first agent is another one and the base engine
    reported nothing for ["agent-0"], the callback raises. *)
Theorem on_episode_end_after_step (E : Engine) (actions : list (string * Z))
    (e e' : SwitchEnv) (r : StepResult) (metrics : gmap string pyval)
    (first_agent : string) :
  step E actions e = Some (e', r) →
  head (actions.*1) = Some first_agent →
  (first_agent = "agent-0"%string →
     ∃ episode',
       on_episode_end
         {[ "episode"%string :=
              {| last_info := step_info r; custom_metrics := metrics |} ]}
         = Some episode' ∧
       custom_metrics episode' !! "switches_on_at_termination"%string
         = Some (PyInt (switches_on_at_termination e')) ∧
       custom_metrics episode' !! "total_pulled_on"%string
         = Some (PyInt (total_pulled_on e')) ∧
       custom_metrics episode' !! "total_pulled_off"%string
         = Some (PyInt (total_pulled_off e')) ∧
       custom_metrics episode' !! "timestep_first_switch_pull"%string
         = Some (timestep_first_switch_pull e') ∧
       custom_metrics episode' !! "timestep_last_switch_pull"%string
         = Some (timestep_last_switch_pull e') ∧
       custom_metrics episode' !! "total_successes"%string
         = Some (PyInt (total_successes e'))) ∧
  (first_agent ≠ "agent-0"%string →
     (∀ base, MapEnv_step E actions e = Some base →
        step_info base.2 !! "agent-0"%string = None) →
     on_episode_end
       {[ "episode"%string :=
            {| last_info := step_info r; custom_metrics := metrics |} ]}
       = None).
Proof.
  intros Hstep Hfirst.
  pose proof Hstep as (base & fa & rw & Hbase & Hfa & Hrw & He' & Hr)%step_Some.
  rewrite Hfirst in Hfa. injection Hfa as <-.
  assert (Hinfo : step_info r !! first_agent = Some (create_extra_info_dict e')).
  { rewrite Hr, He'. simpl.
    rewrite lookup_union_l' by (rewrite lookup_singleton_eq; by eexists).
    by rewrite lookup_singleton_eq. }
  assert (Hother : ∀ other, other ≠ first_agent →
            step_info r !! other = step_info base.2 !! other).
  { intros other Hne. rewrite Hr. simpl. rewrite lookup_union_r; [done|].
    by apply lookup_singleton_ne. }
  split.
  - intros ->.
    destruct (on_episode_end_Some
      {[ "episode"%string :=
           {| last_info := step_info r; custom_metrics := metrics |} ]}
      {| last_info := step_info r; custom_metrics := metrics |}
      (create_extra_info_dict e'))
      as (episode' & Hend & _ & Hkeys & _).
    + by rewrite lookup_singleton_eq.
    + exact Hinfo.
    + intros key. apply extra_info_has_keys.
    + exists episode'. split; [exact Hend|].
      repeat split; (rewrite Hkeys; [reflexivity|]); unfold extra_info_keys;
        set_solver.
  - intros Hne Hbaseinfo. unfold on_episode_end.
    rewrite lookup_singleton_eq. cbn [mbind option_bind last_info].
    rewrite Hother by done. by rewrite (Hbaseinfo base Hbase).
Qed.

Lemma on_episode_end_after_step_witness :
  ∃ e' r episode',
    step idle_engine two_agents demo_state = Some (e', r) ∧
    on_episode_end
      {[ "episode"%string := {| last_info := step_info r; custom_metrics := ∅ |} ]}
      = Some episode' ∧
    custom_metrics episode' !! "total_pulled_on"%string = Some (PyInt 2).
Proof.
  destruct (step idle_engine two_agents demo_state) as [[e' r]|] eqn:Hstep.
  - destruct (on_episode_end_after_step idle_engine two_agents demo_state e' r ∅
                "agent-0"%string Hstep eq_refl) as [Hfirst _].
    destruct (Hfirst eq_refl) as (episode' & Hend & _ & Hon & _).
    exists e', r, episode'. split; [reflexivity|]. split; [exact Hend|].
    rewrite Hon. vm_compute in Hstep. injection Hstep as <- <-. reflexivity.
  - vm_compute in Hstep. discriminate Hstep.
Defined.
